(** * DD60 character generator: stroke decoder, triplets and bitmap rasterizer

    A shallow embedding of
    - [src/chargen/cdcRomFunctions.js] (ROM lookup and stroke decoder),
    - [src/chargenTriplets.js] (triplet conversion and metrics),
    - [src/chargenRenderer.js] (true-size and CDC-scaled bitmap rendering),
    - [src/vectorToCdcTableCorrect.js] and [src/generateCdcRomBinary.js]
      (the vector-to-table converters and the ROM file values),
    - the two-pass encoder and the round-trip tests' decoder and
      comparison functions,
    together with the properties the specification states about them and
    further properties read off the code.

    JavaScript numbers that hold stroke codes, coordinates, directions and
    intensities are integers here ([Z]); arrays are lists; the glyph table
    object is a finite map of its own entries, keyed by strings, behind
    which a lookup also sees the members of [Object.prototype]. *)

From Stdlib Require Import ZArith NArith QArith List Sorted Bool Lia Ascii String.
From stdpp Require Import gmap strings list.

Local Open Scope Z_scope.

(** ** The stroke decoder (cdcRomFunctions.js) *)

Module Decoder.

(** A decoded point is the array [[x, y, beam]]. *)
Abbreviation VectorPoint := (Z * Z * bool)%type.

(** The local variables of [binaryToVector] that survive one loop
    iteration. *)
Record DecodeState : Type := mkState {
  currentX : Z;
  currentY : Z;
  beamOn : bool;
  horizontalDirection : Z;
  verticalDirection : Z
}.

(** [let currentX = 0; let currentY = 0; let beamOn = false;
     let horizontalDirection = 1; let verticalDirection = 1;] *)
Definition initialState : DecodeState :=
  mkState 0 0 false 1 1.

(** [Boolean((binary >> k) & 1)] *)
Definition flag (binary : Z) (k : Z) : bool :=
  negb (Z.land (Z.shiftr binary k) 1 =? 0).

(** Decoded flags [{V1, V2, H1, H2, U}]. *)
Record Flags : Type := mkFlags {
  V1 : bool; V2 : bool; H1 : bool; H2 : bool; U : bool
}.

Definition decodeBinary (binary : Z) : Flags :=
  mkFlags (flag binary 4) (flag binary 3) (flag binary 2) (flag binary 1)
          (flag binary 0).

(** One axis of the loop body: both bits set toggles the direction, one bit
    set moves by 1 or 2 in the current direction, none leaves the axis. *)
Definition axisStep (b1 b2 : bool) (pos dir : Z) : Z * Z :=
  if b1 && b2 then (pos, - dir)
  else if b1 then (pos + 1 * dir, dir)
  else if b2 then (pos + 2 * dir, dir)
  else (pos, dir).

(** The body of the [for] loop of [binaryToVector], up to the [push]. *)
Definition step (st : DecodeState) (binary : Z) : DecodeState :=
  let f := decodeBinary binary in
  let '(y, vdir) := axisStep (V1 f) (V2 f) (currentY st) (verticalDirection st) in
  let '(x, hdir) := axisStep (H1 f) (H2 f) (currentX st) (horizontalDirection st) in
  let beam := if U f then negb (beamOn st) else beamOn st in
  mkState x y beam hdir vdir.

(** The pushed element [[currentX, currentY, beamOn]]. *)
Definition emit (st : DecodeState) : VectorPoint :=
  (currentX st, currentY st, beamOn st).

(** The [for] loop: [vectorData] grows by one [push] per stroke code. *)
Fixpoint decodeLoop (st : DecodeState) (binaryData : list Z)
    (vectorData : list VectorPoint) : list VectorPoint :=
  match binaryData with
  | [] => vectorData
  | binary :: rest =>
      let st' := step st binary in
      decodeLoop st' rest (vectorData ++ [emit st'])
  end.

(** [binaryToVector]: the early return for an empty array, then the loop
    from the initial state. *)
Definition binaryToVector (binaryData : list Z) : list VectorPoint :=
  if (Z.of_nat (length binaryData) =? 0) then []
  else decodeLoop initialState binaryData [].

(** What a property lookup on the table object can give.  The table
    [cdcRomBinary] lives in a generated file, where it is written as an
    object literal [{ "0": [...], ... }]; it is a parameter here, a finite
    map holding its own entries.  Being a plain object it also inherits the
    members of [Object.prototype]. *)
Inductive Value : Type :=
| Undefined
| NumberArray (elements : list Z)
| Inherited (name : string) (len : option Z).

(** The members of [Object.prototype], each with what its [length]
    property reads: the number of parameters for the functions, nothing
    for [__proto__], whose value is the prototype object itself. *)
Definition objectPrototype : list (string * option Z) :=
  [("constructor"%string, Some 1);
   ("__defineGetter__"%string, Some 2);
   ("__defineSetter__"%string, Some 2);
   ("hasOwnProperty"%string, Some 1);
   ("__lookupGetter__"%string, Some 1);
   ("__lookupSetter__"%string, Some 1);
   ("isPrototypeOf"%string, Some 1);
   ("propertyIsEnumerable"%string, Some 1);
   ("toString"%string, Some 0);
   ("valueOf"%string, Some 0);
   ("__proto__"%string, None);
   ("toLocaleString"%string, Some 0)].

Fixpoint lookupInherited (members : list (string * option Z)) (key : string)
    : option (option Z) :=
  match members with
  | [] => None
  | (name, len) :: rest =>
      if String.eqb name key then Some len else lookupInherited rest key
  end.

(** [cdcRomBinary[key]]: an own entry first, then the prototype. *)
Definition getProperty (cdcRomBinary : gmap string (list Z)) (key : string)
    : Value :=
  match cdcRomBinary !! key with
  | Some binaryData => NumberArray binaryData
  | None =>
      match lookupInherited objectPrototype key with
      | Some len => Inherited key len
      | None => Undefined
      end
  end.

(** [getCharacterBinary]: [cdcRomBinary[char] || cdcRomBinary[' ']].  Only
    [undefined] is falsy among the values a lookup gives: arrays, functions
    and objects are truthy. *)
Definition getCharacterBinary (cdcRomBinary : gmap string (list Z))
    (char : string) : Value :=
  match getProperty cdcRomBinary char with
  | Undefined => getProperty cdcRomBinary " "
  | found => found
  end.

(** [binaryToVector] as its callers reach it.  The guard [!binaryData]
    returns the empty array for [undefined].  An inherited member passes
    the guard; its [length] bounds the loop (no iteration when it reads
    [undefined] or 0), and each [binaryData[i]] is [undefined], all of
    whose bits are clear, as for the stroke code 0. *)
Definition binaryToVectorArg (binaryData : Value) : list VectorPoint :=
  match binaryData with
  | Undefined => []
  | NumberArray binaryData => binaryToVector binaryData
  | Inherited _ (Some len) => binaryToVector (replicate (Z.to_nat len) 0)
  | Inherited _ None => []
  end.

(** [getCharacterVector] *)
Definition getCharacterVector (cdcRomBinary : gmap string (list Z))
    (char : string) : list VectorPoint :=
  binaryToVectorArg (getCharacterBinary cdcRomBinary char).

(** [generateVectorRom]: one decoded entry per entry of the table. *)
Definition generateVectorRom (cdcRomBinary : gmap string (list Z))
    : gmap string (list VectorPoint) :=
  binaryToVector <$> cdcRomBinary.

(** The state reached after a prefix of strokes. *)
Definition stateAfter (st : DecodeState) (strokes : list Z) : DecodeState :=
  fold_left step strokes st.

(** Points emitted when the loop is entered in state [st]. *)
Definition decodeFrom (st : DecodeState) (binaryData : list Z)
    : list VectorPoint :=
  decodeLoop st binaryData [].

(** Both directions are [1] or [-1]. *)
Definition unitDirections (st : DecodeState) : Prop :=
  Z.abs (horizontalDirection st) = 1 /\ Z.abs (verticalDirection st) = 1.

(** The position a decoded point is compared with: the origin for the
    first point, the position of the point before it otherwise. *)
Definition previousPosition (points : list VectorPoint) (i : nat) : Z * Z :=
  match i with
  | O => (0, 0)
  | S j => match points !! j with
           | Some (x, y, _) => (x, y)
           | None => (0, 0)
           end
  end.

(** A stroke code that moves on neither axis: each axis has both bits
    clear or both bits set. *)
Definition stationary (binary : Z) : bool :=
  let f := decodeBinary binary in
  eqb (V1 f) (V2 f) && eqb (H1 f) (H2 f).

(** A stroke code that toggles no direction. *)
Definition toggleFree (binary : Z) : bool :=
  let f := decodeBinary binary in
  negb (V1 f && V2 f) && negb (H1 f && H2 f).

(** Whether an odd number of the stroke codes has the beam bit set. *)
Definition beamParity (strokes : list Z) : bool :=
  fold_left (fun acc binary => xorb acc (U (decodeBinary binary)))
            strokes false.

End Decoder.

(** ** Triplet arrays (chargenTriplets.js) *)

Module Triplets.
Import Decoder.

(** A triplet is the array [[x, y, beamIntensity]]. *)
Abbreviation Triplet := (Z * Z * Z)%type.

(** [vectorToTriplets]: the early return for an empty array, then
    [vectorData.map(([x, y, beamOn]) => [x, y, beamOn ? 1 : 0])]. *)
Definition vectorToTriplets (vectorData : list VectorPoint) : list Triplet :=
  if (Z.of_nat (length vectorData) =? 0) then []
  else map (fun '(x, y, beamOn) =>
              let beamIntensity := if (beamOn : bool) then 1 else 0 in
              (x, y, beamIntensity)) vectorData.

(** The test of the [if] in [findDwellPoints], on [triplets[i]] and
    [triplets[i - 1]]. *)
Definition dwellTest (cur prev : Triplet) : bool :=
  let '(x, y, intensity) := cur in
  let '(prevX, prevY, prevIntensity) := prev in
  (x =? prevX) && (y =? prevY) && (intensity >? 0) && (prevIntensity >? 0).

(** One iteration of the [for] loop of [findDwellPoints] at index [i]. *)
Definition dwellBody (triplets : list Triplet) (dwells : list nat) (i : nat)
    : list nat :=
  match triplets !! i, triplets !! (i - 1)%nat with
  | Some cur, Some prev =>
      if dwellTest cur prev then dwells ++ [i] else dwells
  | _, _ => dwells
  end.

(** [findDwellPoints]: [for (let i = 1; i < triplets.length; i++)]. *)
Definition findDwellPoints (triplets : list Triplet) : list nat :=
  fold_left (dwellBody triplets) (seq 1 (length triplets - 1)) [].

(** The objects pushed by [tripletsToSegments]. *)
Record Segment : Type := mkSegment {
  x1 : Z; y1 : Z; x2 : Z; y2 : Z; intensity : Z
}.

Fixpoint segmentsLoop (prevX prevY : Z) (triplets : list Triplet)
    (segments : list Segment) : list Segment :=
  match triplets with
  | [] => segments
  | (x, y, i) :: rest =>
      segmentsLoop x y rest (segments ++ [mkSegment prevX prevY x y i])
  end.

(** [tripletsToSegments]: starts from the implicit origin (0, 0). *)
Definition tripletsToSegments (triplets : list Triplet) : list Segment :=
  segmentsLoop 0 0 triplets [].

(** [calculateBeamOnDistance] accumulates in JavaScript numbers.  The
    number type and its two operations are left abstract: [add] is [+] on
    numbers and [sqrt] is [Math.sqrt] applied to the (integer) value of
    [dx * dx + dy * dy]. *)
Section BeamOnDistance.
Variable num : Type.
Variable zero : num.
Variable add : num -> num -> num.
Variable sqrt : Z -> num.

Fixpoint distanceLoop (totalDistance : num) (prevX prevY : Z)
    (triplets : list Triplet) : num :=
  match triplets with
  | [] => totalDistance
  | (x, y, intensity) :: rest =>
      let totalDistance :=
        if intensity >? 0 then
          let dx := x - prevX in
          let dy := y - prevY in
          add totalDistance (sqrt (dx * dx + dy * dy))
        else totalDistance in
      distanceLoop totalDistance x y rest
  end.

Definition calculateBeamOnDistance (triplets : list Triplet) : num :=
  distanceLoop zero 0 0 triplets.

(** The position of the point before index [i]: the implicit origin for
    the first point, the previous triplet's position otherwise. *)
Definition predecessor (triplets : list Triplet) (i : nat) : Z * Z :=
  match i with
  | O => (0, 0)
  | S j => match triplets !! j with
           | Some (x, y, _) => (x, y)
           | None => (0, 0)
           end
  end.

(** The Euclidean distance between the point at index [i] and its
    predecessor. *)
Definition segmentLength (triplets : list Triplet) (i : nat) : num :=
  match triplets !! i with
  | Some (x, y, _) =>
      let '(px, py) := predecessor triplets i in
      sqrt ((x - px) * (x - px) + (y - py) * (y - py))
  | None => zero
  end.

(** Index [i] ends a beam-on segment. *)
Definition beamOnAt (triplets : list Triplet) (i : nat) : bool :=
  match triplets !! i with
  | Some (_, _, intensity) => intensity >? 0
  | None => false
  end.

(** A sum of numbers, accumulated from [zero] in list order. *)
Definition sum (l : list num) : num := fold_left add l zero.
End BeamOnDistance.

(** [filterByIntensity]; the default [threshold] is [0.5]. *)
Definition filterByIntensity (triplets : list Triplet) (threshold : Q)
    : list Triplet :=
  List.filter (fun '(x, y, intensity) =>
                 Qle_bool threshold (inject_Z intensity)) triplets.

Definition defaultThreshold : Q := (1 # 2)%Q.

(** Numbers as [getCharacterBounds] holds them: the running bounds start
    at [Infinity] and [-Infinity]. *)
Inductive Num : Type :=
| NegInfinity
| Finite (z : Z)
| Infinity.

(** [Math.min(a, x)] and [Math.max(a, x)] for a coordinate [x]. *)
Definition mathMin (a : Num) (x : Z) : Num :=
  match a with
  | NegInfinity => NegInfinity
  | Finite m => Finite (Z.min m x)
  | Infinity => Finite x
  end.

Definition mathMax (a : Num) (x : Z) : Num :=
  match a with
  | NegInfinity => Finite x
  | Finite m => Finite (Z.max m x)
  | Infinity => Infinity
  end.

Record Bounds : Type := mkBounds {
  minX : Num; maxX : Num; minY : Num; maxY : Num
}.

(** The body of the [for] loop of [getCharacterBounds]. *)
Definition boundsBody (b : Bounds) (t : Triplet) : Bounds :=
  let '(x, y, _) := t in
  mkBounds (mathMin (minX b) x) (mathMax (maxX b) x)
           (mathMin (minY b) y) (mathMax (maxY b) y).

(** [getCharacterBounds] *)
Definition getCharacterBounds (triplets : list Triplet) : Bounds :=
  if (Z.of_nat (length triplets) =? 0)
  then mkBounds (Finite 0) (Finite 0) (Finite 0) (Finite 0)
  else fold_left boundsBody triplets
                 (mkBounds Infinity NegInfinity Infinity NegInfinity).

(** [getCharacterTriplets] *)
Definition getCharacterTriplets (cdcRomBinary : gmap string (list Z))
    (char : string) : list Triplet :=
  let binaryData := getCharacterBinary cdcRomBinary char in
  let vectorData := binaryToVectorArg binaryData in
  vectorToTriplets vectorData.

End Triplets.


(** ** Bitmap rendering (chargenRenderer.js) *)

Module Renderer.
Import Triplets.

(** The part of a [CanvasRenderingContext2D] the bitmap renderers touch:
    the two style fields, the line width, the current path, and the drawing
    calls issued so far, oldest first. *)
Inductive PathCmd : Type :=
| MoveTo (x y : Z)
| LineTo (x y : Z).

Inductive CanvasOp : Type :=
| FillRect (style : string) (x y w h : Z)
| StrokePath (style : string) (width : Q) (cmds : list PathCmd).

Record Ctx : Type := mkCtx {
  fillStyle : string;
  strokeStyle : string;
  lineWidth : Q;
  path : list PathCmd;
  ops : list CanvasOp
}.

Definition setFillStyle (s : string) (ctx : Ctx) : Ctx :=
  mkCtx s (strokeStyle ctx) (lineWidth ctx) (path ctx) (ops ctx).

Definition setStrokeStyle (s : string) (ctx : Ctx) : Ctx :=
  mkCtx (fillStyle ctx) s (lineWidth ctx) (path ctx) (ops ctx).

Definition setLineWidth (w : Q) (ctx : Ctx) : Ctx :=
  mkCtx (fillStyle ctx) (strokeStyle ctx) w (path ctx) (ops ctx).

Definition beginPath (ctx : Ctx) : Ctx :=
  mkCtx (fillStyle ctx) (strokeStyle ctx) (lineWidth ctx) [] (ops ctx).

Definition moveTo (x y : Z) (ctx : Ctx) : Ctx :=
  mkCtx (fillStyle ctx) (strokeStyle ctx) (lineWidth ctx)
        (path ctx ++ [MoveTo x y]) (ops ctx).

Definition lineTo (x y : Z) (ctx : Ctx) : Ctx :=
  mkCtx (fillStyle ctx) (strokeStyle ctx) (lineWidth ctx)
        (path ctx ++ [LineTo x y]) (ops ctx).

Definition stroke (ctx : Ctx) : Ctx :=
  mkCtx (fillStyle ctx) (strokeStyle ctx) (lineWidth ctx) (path ctx)
        (ops ctx ++ [StrokePath (strokeStyle ctx) (lineWidth ctx) (path ctx)]).

Definition fillRect (x y w h : Z) (ctx : Ctx) : Ctx :=
  mkCtx (fillStyle ctx) (strokeStyle ctx) (lineWidth ctx) (path ctx)
        (ops ctx ++ [FillRect (fillStyle ctx) x y w h]).

(** The [while (true)] loop shared, statement for statement, by
    [drawPixelLine] and [drawCDCBitmapLine]; the two differ only in the
    [fillRect] issued at each visited point, passed as [plot].  [fuel]
    bounds the number of iterations; [None] means it ran out before the
    [break]. *)
Fixpoint lineLoop (plot : Z -> Z -> Ctx -> Ctx) (fuel : nat)
    (x1 y1 dx dy sx sy : Z) (x y err : Z) (ctx : Ctx) : option Ctx :=
  match fuel with
  | O => None
  | S fuel' =>
      let ctx := plot x y ctx in
      if (x =? x1) && (y =? y1) then Some ctx
      else
        let e2 := 2 * err in
        let '(err, x) := if e2 >? - dy then (err - dy, x + sx) else (err, x) in
        let '(err, y) := if e2 <? dx then (err + dx, y + sy) else (err, y) in
        lineLoop plot fuel' x1 y1 dx dy sx sy x y err ctx
  end.

(** The prologue of both line functions. *)
Definition drawLine (plot : Z -> Z -> Ctx -> Ctx) (fuel : nat)
    (ctx : Ctx) (x0 y0 x1 y1 : Z) : option Ctx :=
  let dx := Z.abs (x1 - x0) in
  let dy := Z.abs (y1 - y0) in
  let sx := if x0 <? x1 then 1 else -1 in
  let sy := if y0 <? y1 then 1 else -1 in
  let err := dx - dy in
  lineLoop plot fuel x1 y1 dx dy sx sy x0 y0 err ctx.

(** [drawPixelLine]: [ctx.fillRect(x, 6 - y, 1, 1)] at each point. *)
Definition drawPixelLine (fuel : nat) (ctx : Ctx) (x0 y0 x1 y1 : Z)
    : option Ctx :=
  drawLine (fun x y => fillRect x (6 - y) 1 1) fuel ctx x0 y0 x1 y1.

(** [drawCDCBitmapLine]:
    [ctx.fillRect(x, (7 * scale - 1) - y, beamWidth, beamWidth)]. *)
Definition drawCDCBitmapLine (fuel : nat) (ctx : Ctx) (x0 y0 x1 y1 : Z)
    (beamWidth scale : Z) : option Ctx :=
  drawLine (fun x y =>
              let pixelY := (7 * scale - 1) - y in
              fillRect x pixelY beamWidth beamWidth)
           fuel ctx x0 y0 x1 y1.

(** Options of [renderTrueSizeBitmap] with their defaults. *)
Record TrueSizeOptions : Type := mkTrueSizeOptions {
  tsPixelColor : string;
  tsBackgroundColor : string
}.

Definition defaultTrueSizeOptions : TrueSizeOptions :=
  mkTrueSizeOptions "#000000" "#ffffff".

Fixpoint trueSizeLoop (fuel : nat) (prevX prevY : Z)
    (triplets : list Triplet) (ctx : Ctx) : option Ctx :=
  match triplets with
  | [] => Some ctx
  | (x, y, intensity) :: rest =>
      ctx ← (if intensity >? 0
             then drawPixelLine fuel ctx prevX prevY x y
             else Some ctx);
      trueSizeLoop fuel x y rest ctx
  end.

(** [renderTrueSizeBitmap] *)
Definition renderTrueSizeBitmap (fuel : nat) (ctx : Ctx)
    (triplets : list Triplet) (options : TrueSizeOptions) : option Ctx :=
  let ctx := setFillStyle (tsBackgroundColor options) ctx in
  let ctx := fillRect 0 0 7 7 ctx in
  let ctx := setFillStyle (tsPixelColor options) ctx in
  trueSizeLoop fuel 0 0 triplets ctx.

(** Options of [renderCDCScaledBitmap] with their defaults. *)
Record CDCOptions : Type := mkCDCOptions {
  pixelColor : string;
  backgroundColor : string;
  beamWidth : Z;
  showPixelGrid : bool;
  gridColor : string
}.

Definition defaultCDCOptions : CDCOptions :=
  mkCDCOptions "#000000" "#ffffff" 1 false "#f0f0f0".

(** The values [0, 1, ..., n - 1] of a counting loop. *)
Definition zrange (n : Z) : list Z :=
  map Z.of_nat (seq 0 (Z.to_nat n)).

(** One iteration of the pixel-grid loop. *)
Definition gridBody (resolution : Z) (ctx : Ctx) (i : Z) : Ctx :=
  let ctx := beginPath ctx in
  let ctx := moveTo i 0 ctx in
  let ctx := lineTo i resolution ctx in
  let ctx := stroke ctx in
  let ctx := beginPath ctx in
  let ctx := moveTo 0 i ctx in
  let ctx := lineTo resolution i ctx in
  stroke ctx.

Fixpoint cdcLoop (fuel : nat) (scale beamWidth : Z) (prevX prevY : Z)
    (triplets : list Triplet) (ctx : Ctx) : option Ctx :=
  match triplets with
  | [] => Some ctx
  | (x, y, intensity) :: rest =>
      ctx ← (if intensity >? 0 then
               let scaledX0 := prevX * scale in
               let scaledY0 := prevY * scale in
               let scaledX1 := x * scale in
               let scaledY1 := y * scale in
               drawCDCBitmapLine fuel ctx scaledX0 scaledY0 scaledX1 scaledY1
                                 beamWidth scale
             else Some ctx);
      cdcLoop fuel scale beamWidth x y rest ctx
  end.

(** [renderCDCScaledBitmap] *)
Definition renderCDCScaledBitmap (fuel : nat) (ctx : Ctx)
    (triplets : list Triplet) (scale : Z) (options : CDCOptions)
    : option Ctx :=
  let resolution := 7 * scale in
  let ctx := setFillStyle (backgroundColor options) ctx in
  let ctx := fillRect 0 0 resolution resolution ctx in
  let ctx :=
    if showPixelGrid options then
      let ctx := setStrokeStyle (gridColor options) ctx in
      let ctx := setLineWidth (1 # 2)%Q ctx in
      fold_left (gridBody resolution) (zrange (resolution + 1)) ctx
    else ctx in
  let ctx := setFillStyle (pixelColor options) ctx in
  cdcLoop fuel scale (beamWidth options) 0 0 triplets ctx.

(** The points visited by the line loop from [(x, y)], as a list. *)
Fixpoint walk (fuel : nat) (x1 y1 dx dy sx sy : Z) (x y err : Z)
    : option (list (Z * Z)) :=
  match fuel with
  | O => None
  | S fuel' =>
      if (x =? x1) && (y =? y1) then Some [(x, y)]
      else
        let e2 := 2 * err in
        let '(err', x') := if e2 >? - dy then (err - dy, x + sx) else (err, x) in
        let '(err'', y') := if e2 <? dx then (err' + dx, y + sy) else (err', y) in
        cons (x, y) <$> walk fuel' x1 y1 dx dy sx sy x' y' err''
  end.

(** The integer Bresenham line from [(x0, y0)] to [(x1, y1)]: at most
    [|x1 - x0| + |y1 - y0| + 1] points. *)
Definition bresenham (x0 y0 x1 y1 : Z) : list (Z * Z) :=
  let dx := Z.abs (x1 - x0) in
  let dy := Z.abs (y1 - y0) in
  let sx := if x0 <? x1 then 1 else -1 in
  let sy := if y0 <? y1 then 1 else -1 in
  default [] (walk (Z.to_nat (dx + dy + 1)) x1 y1 dx dy sx sy x0 y0 (dx - dy)).

(** The iterations a line needs. *)
Definition lineFuel (x0 y0 x1 y1 : Z) : nat :=
  Z.to_nat (Z.abs (x1 - x0) + Z.abs (y1 - y0) + 1).

(** The stroke pixels of CDC-scaled rendering, described directly: for
    each triplet with positive intensity, the Bresenham line between the
    scaled predecessor and the scaled point, each visited point [(x, y)]
    painted as the square of side [beamWidth] at [(x, (7 * scale - 1) - y)]. *)
Fixpoint cdcStrokes (style : string) (scale beamWidth : Z) (prevX prevY : Z)
    (triplets : list Triplet) : list CanvasOp :=
  match triplets with
  | [] => []
  | (x, y, intensity) :: rest =>
      (if intensity >? 0 then
         map (fun '(px, py) =>
                FillRect style px ((7 * scale - 1) - py) beamWidth beamWidth)
             (bresenham (prevX * scale) (prevY * scale) (x * scale) (y * scale))
       else [])
      ++ cdcStrokes style scale beamWidth x y rest
  end.

(** Fuel that suffices for every line of a CDC-scaled rendering. *)
Fixpoint cdcFuel (scale : Z) (prevX prevY : Z) (triplets : list Triplet)
    : nat :=
  match triplets with
  | [] => O
  | (x, y, _) :: rest =>
      Nat.max (lineFuel (prevX * scale) (prevY * scale) (x * scale) (y * scale))
              (cdcFuel scale x y rest)
  end.

(** A fresh 2D context: black fill and stroke styles, line width 1, an
    empty path, nothing drawn. *)
Definition freshCtx : Ctx :=
  mkCtx "#000000" "#000000" 1%Q [] [].

(** A drawing call that paints exactly one device pixel. *)
Definition onePixel (op : CanvasOp) : bool :=
  match op with
  | FillRect _ _ _ w h => (w =? 1) && (h =? 1)
  | StrokePath _ _ _ => false
  end.

(** Consecutive points are distinct neighbours: they differ by at most 1
    on each axis and by exactly 1 on at least one. *)
Fixpoint chained (pts : list (Z * Z)) : Prop :=
  match pts with
  | p :: rest =>
      match rest with
      | q :: _ =>
          Z.max (Z.abs (fst q - fst p)) (Z.abs (snd q - snd p)) = 1
      | [] => True
      end /\ chained rest
  | [] => True
  end.

(** A drawing call that is a rectangle lying within the square canvas
    [size x size]. *)
Definition insideCanvas (size : Z) (op : CanvasOp) : bool :=
  match op with
  | FillRect _ x y w h =>
      (0 <=? x) && (0 <=? y) && (x + w <=? size) && (y + h <=? size)
  | StrokePath _ _ _ => false
  end.

(** The lines of the pixel grid: for each [i], a vertical and a
    horizontal line across the canvas. *)
Definition gridOps (style : string) (width : Q) (resolution : Z)
    (indices : list Z) : list CanvasOp :=
  flat_map (fun i => [StrokePath style width [MoveTo i 0; LineTo i resolution];
                      StrokePath style width [MoveTo 0 i; LineTo resolution i]])
           indices.

End Renderer.


(** ** Number formatting and parsing used by the encoders *)

Module JSString.

(** The digit characters of [Number.prototype.toString(radix)]. *)
Definition digitChar (d : N) : ascii :=
  if (d <? 10)%N then ascii_of_N (48 + d) else ascii_of_N (87 + d).

Fixpoint digitsLoop (fuel : nat) (radix n : N) (acc : string) : string :=
  match fuel with
  | O => acc
  | S fuel' =>
      let acc' := String (digitChar (n mod radix)) acc in
      if (n / radix =? 0)%N then acc'
      else digitsLoop fuel' radix (n / radix) acc'
  end.

(** [n.toString(radix)] for an integer [n] and a radix from 2 to 36. *)
Definition numberToString (radix : N) (n : Z) : string :=
  let digits m := digitsLoop (S (N.to_nat (N.log2 m))) radix m "" in
  if n <? 0 then String "-" (digits (Z.to_N (- n))) else digits (Z.to_N n).

Fixpoint repeatChar (k : nat) (c : ascii) : string :=
  match k with
  | O => ""
  | S k' => String c (repeatChar k' c)
  end.

(** [s.padStart(targetLength, c)] for a one-character pad string [c]. *)
Definition padStart (targetLength : nat) (c : ascii) (s : string) : string :=
  (repeatChar (targetLength - String.length s) c ++ s)%string.

(** [s.replace(pattern, replacement)] for a string pattern: the first
    occurrence only. *)
Fixpoint replaceFirst (pattern replacement s : string) : string :=
  if String.prefix pattern s
  then (replacement
        ++ String.substring (String.length pattern)
                            (String.length s - String.length pattern) s)%string
  else match s with
       | EmptyString => EmptyString
       | String c rest => String c (replaceFirst pattern replacement rest)
       end.

(** The value of a digit character, for [parseInt]. *)
Definition digitValue (c : ascii) : option N :=
  let n := N_of_ascii c in
  if ((48 <=? n) && (n <=? 57))%N then Some (n - 48)%N
  else if ((97 <=? n) && (n <=? 122))%N then Some (n - 87)%N
  else if ((65 <=? n) && (n <=? 90))%N then Some (n - 55)%N
  else None.

(** The longest prefix of digits valid in [radix], accumulated into a
    number; [None] when not even one digit has been read. *)
Fixpoint parseDigits (radix : N) (acc : option N) (s : string) : option N :=
  match s with
  | EmptyString => acc
  | String c rest =>
      match digitValue c with
      | Some d =>
          if (d <? radix)%N
          then parseDigits radix (Some (default 0%N acc * radix + d)%N) rest
          else acc
      | None => acc
      end
  end.

Definition isWhiteSpace (c : ascii) : bool :=
  let n := N_of_ascii c in
  ((n =? 32) || ((9 <=? n) && (n <=? 13)))%N.

Fixpoint trimStart (s : string) : string :=
  match s with
  | String c rest => if isWhiteSpace c then trimStart rest else s
  | EmptyString => EmptyString
  end.

(** [parseInt(s, radix)] for an explicit radix from 2 to 36 other than 16
    (which also accepts a [0x] prefix); [None] is [NaN]. *)
Definition parseInt (s : string) (radix : N) : option Z :=
  let s := trimStart s in
  let '(negative, s) :=
    match s with
    | String "-" rest => (true, rest)
    | String "+" rest => (false, rest)
    | _ => (false, s)
    end in
  match parseDigits radix None s with
  | Some n => Some (if negative : bool then - Z.of_N n else Z.of_N n)
  | None => None
  end.

End JSString.

(** ** The vector-to-table encoders (vectorToCdcTableCorrect.js) *)

Module Encoder.
Import Decoder JSString.

Definition bit (b : bool) : Z := if b then 1 else 0.

(** [(V1_bit << 4) | (V2_bit << 3) | (H1_bit << 2) | (H2_bit << 1) | U_bit] *)
Definition packFlags (f : Flags) : Z :=
  Z.lor (Z.lor (Z.lor (Z.lor (Z.shiftl (bit (V1 f)) 4)
                             (Z.shiftl (bit (V2 f)) 3))
                      (Z.shiftl (bit (H1 f)) 2))
               (Z.shiftl (bit (H2 f)) 1))
        (bit (U f)).

(** [`0b${binaryValue.toString(2).padStart(5, '0')}`] *)
Definition binaryString (binaryValue : Z) : string :=
  ("0b" ++ padStart 5 "0" (numberToString 2 binaryValue))%string.

(** [i === 0 ? '76' : (i - 1).toString(8).padStart(2, '0')] *)
Definition strokeLabel (i : nat) : string :=
  match i with
  | O => "76"
  | S j => padStart 2 "0" (numberToString 8 (Z.of_nat j))
  end.

(** An entry of [detailedTable].  The [flags] object holds ['X'] or [' ']
    per flag in the source; it is kept as the booleans it is built from.
    [directions] and [notes] are filled by the direction-aware converter
    only and are empty otherwise. *)
Record TableEntry : Type := mkEntry {
  step : nat;
  label : string;
  position : Z * Z;
  delta : Z * Z;
  beam : string;
  directions : string;
  flags : Flags;
  binary : string;
  decimal : Z;
  notes : string
}.

(** The [summary] object; [directionToggles] belongs to the direction-aware
    converter only and stays 0 in the simple one. *)
Record Summary : Type := mkSummary {
  totalStrokes : Z;
  beamOnStrokes : Z;
  beamOffStrokes : Z;
  directionToggles : Z
}.

Record Result : Type := mkResult {
  character : string;
  binarySequence : list string;
  detailedTable : list TableEntry;
  summary : Summary
}.

(** The end of both loop bodies: push the string and the entry, count the
    beam state. *)
Definition pushEntry (result : Result) (entry : TableEntry) (nextBeam : bool)
    (toggles : Z) : Result :=
  let sm := summary result in
  mkResult (character result)
           (binarySequence result ++ [binary entry])
           (detailedTable result ++ [entry])
           (mkSummary (totalStrokes sm)
                      (if nextBeam then beamOnStrokes sm + 1
                       else beamOnStrokes sm)
                      (if nextBeam then beamOffStrokes sm
                       else beamOffStrokes sm + 1)
                      (directionToggles sm + toggles)).

(** Flags of one stroke of [convertVectorToCdcTableSimple]: the magnitude
    of the move on each axis, whatever its sign. *)
Definition simpleFlags (currentX currentY : Z) (currentBeam : bool)
    (next : VectorPoint) : Flags :=
  let '(nextX, nextY, nextBeam) := next in
  let deltaX := nextX - currentX in
  let deltaY := nextY - currentY in
  let beamToggle := negb (Bool.eqb nextBeam currentBeam) in
  let absVerticalMove := Z.abs deltaY in
  let V1 := absVerticalMove =? 1 in
  let V2 := negb V1 && (absVerticalMove =? 2) in
  let absHorizontalMove := Z.abs deltaX in
  let H1 := absHorizontalMove =? 1 in
  let H2 := negb H1 && (absHorizontalMove =? 2) in
  mkFlags V1 V2 H1 H2 beamToggle.

Definition beamLabel (beam : bool) : string :=
  if beam then "ON" else "OFF".

Fixpoint simpleLoop (i : nat) (currentX currentY : Z) (currentBeam : bool)
    (vectorData : list VectorPoint) (result : Result) : Result :=
  match vectorData with
  | [] => result
  | (nextX, nextY, nextBeam) :: rest =>
      let f := simpleFlags currentX currentY currentBeam
                           (nextX, nextY, nextBeam) in
      let binaryValue := packFlags f in
      let tableEntry :=
        mkEntry i (strokeLabel i) (nextX, nextY)
                (nextX - currentX, nextY - currentY) (beamLabel nextBeam)
                "" f (binaryString binaryValue) binaryValue "" in
      simpleLoop (S i) nextX nextY nextBeam rest
                 (pushEntry result tableEntry nextBeam 0)
  end.

(** [convertVectorToCdcTableSimple]; [inl] is the thrown [Error]. *)
Definition convertVectorToCdcTableSimple (vectorData : list VectorPoint)
    (characterLabel : string) : string + Result :=
  if (Z.of_nat (length vectorData) =? 0)
  then inl "Invalid vector data provided"%string
  else inr (simpleLoop 0 0 0 false vectorData
              (mkResult characterLabel [] []
                 (mkSummary (Z.of_nat (length vectorData)) 0 0 0))).

(** One axis of a stroke of [convertVectorToCdcTableCorrect]: the two
    flags, the direction afterwards, and whether a toggle was counted. *)
Definition correctAxis (delta direction : Z) : bool * bool * Z * Z :=
  let absMove := Z.abs delta in
  if absMove >? 0 then
    let expectedDirection := if delta >? 0 then 1 else -1 in
    if expectedDirection =? direction then
      let b1 := absMove =? 1 in
      let b2 := negb b1 && (absMove =? 2) in
      (b1, b2, direction, 0)
    else (true, true, - direction, 1)
  else (false, false, direction, 0).

Definition directionsLabel (horizontalDirection verticalDirection : Z)
    : string :=
  ("H" ++ (if horizontalDirection >? 0 then "+" else "-")
   ++ " V" ++ (if verticalDirection >? 0 then "+" else "-"))%string.

Fixpoint correctLoop (i : nat) (currentX currentY : Z) (currentBeam : bool)
    (horizontalDirection verticalDirection : Z)
    (vectorData : list VectorPoint) (result : Result) : Result :=
  match vectorData with
  | [] => result
  | (nextX, nextY, nextBeam) :: rest =>
      let deltaX := nextX - currentX in
      let deltaY := nextY - currentY in
      let beamToggle := negb (Bool.eqb nextBeam currentBeam) in
      let '(V1, V2, verticalDirection, vToggles) :=
        correctAxis deltaY verticalDirection in
      let '(H1, H2, horizontalDirection, hToggles) :=
        correctAxis deltaX horizontalDirection in
      let f := mkFlags V1 V2 H1 H2 beamToggle in
      let binaryValue := packFlags f in
      let notes :=
        ((if V1 && V2 then "V-dir-toggle " else "")
         ++ (if H1 && H2 then "H-dir-toggle " else ""))%string in
      let tableEntry :=
        mkEntry i (strokeLabel i) (nextX, nextY) (deltaX, deltaY)
                (beamLabel nextBeam)
                (directionsLabel horizontalDirection verticalDirection)
                f (binaryString binaryValue) binaryValue notes in
      correctLoop (S i) nextX nextY nextBeam
                  horizontalDirection verticalDirection rest
                  (pushEntry result tableEntry nextBeam (vToggles + hToggles))
  end.

(** [convertVectorToCdcTableCorrect] *)
Definition convertVectorToCdcTableCorrect (vectorData : list VectorPoint)
    (characterLabel : string) : string + Result :=
  if (Z.of_nat (length vectorData) =? 0)
  then inl "Invalid vector data provided"%string
  else inr (correctLoop 0 0 0 false 1 1 vectorData
              (mkResult characterLabel [] []
                 (mkSummary (Z.of_nat (length vectorData)) 0 0 0))).

(** The stroke codes the two loops compute, without the bookkeeping of
    the result object. *)
Fixpoint simpleCodes (currentX currentY : Z) (currentBeam : bool)
    (vectorData : list VectorPoint) : list Z :=
  match vectorData with
  | [] => []
  | (nextX, nextY, nextBeam) :: rest =>
      packFlags (simpleFlags currentX currentY currentBeam
                             (nextX, nextY, nextBeam))
      :: simpleCodes nextX nextY nextBeam rest
  end.

Fixpoint correctCodes (currentX currentY : Z) (currentBeam : bool)
    (horizontalDirection verticalDirection : Z)
    (vectorData : list VectorPoint) : list Z :=
  match vectorData with
  | [] => []
  | (nextX, nextY, nextBeam) :: rest =>
      let '(V1, V2, verticalDirection, _) :=
        correctAxis (nextY - currentY) verticalDirection in
      let '(H1, H2, horizontalDirection, _) :=
        correctAxis (nextX - currentX) horizontalDirection in
      packFlags (mkFlags V1 V2 H1 H2 (negb (Bool.eqb nextBeam currentBeam)))
      :: correctCodes nextX nextY nextBeam
                      horizontalDirection verticalDirection rest
  end.

(** The number of points with the beam on. *)
Definition beamOnCount (vectorData : list VectorPoint) : Z :=
  Z.of_nat (length (List.filter (fun p : VectorPoint => snd p) vectorData)).

(** The numeric stroke codes of a result. *)
Definition strokeCodes (result : Result) : list Z :=
  map decimal (detailedTable result).

(** A path every step of which goes forward by 0, 1 or 2 on each axis,
    starting from [(currentX, currentY)]. *)
Fixpoint forwardPath (currentX currentY : Z) (vectorData : list VectorPoint)
    : Prop :=
  match vectorData with
  | [] => True
  | (x, y, _) :: rest =>
      0 <= x - currentX <= 2 /\ 0 <= y - currentY <= 2
      /\ forwardPath x y rest
  end.

End Encoder.

(** ** Writing the ROM file (generateCdcRomBinary.js) *)

Module RomWriter.
Import Decoder JSString Encoder.

(** [binaryToPattern]: ['X'] for a set bit and ['.'] for a clear one, in
    the order V1 V2 H1 H2 U. *)
Definition binaryToPattern (binary : Z) : string :=
  let bits := [Z.land (Z.shiftr binary 4) 1; Z.land (Z.shiftr binary 3) 1;
               Z.land (Z.shiftr binary 2) 1; Z.land (Z.shiftr binary 1) 1;
               Z.land binary 1] in
  fold_right (fun (b : Z) acc =>
                String (if b =? 0 then "."%char else "X"%char) acc)
             ""%string bits.

(** [getOctalLabel] *)
Definition getOctalLabel (index : nat) : string :=
  match index with
  | O => "76"
  | S j => padStart 2 "0" (numberToString 8 (Z.of_nat j))
  end.

(** The objects [{value, comment}] built by [convertAllCharacters];
    [value] is what [parseInt] returned. *)
Record RomEntry : Type := mkRomEntry {
  value : option Z;
  comment : string
}.

Fixpoint romEntries (index : nat) (binarySequence : list string)
    : list RomEntry :=
  match binarySequence with
  | [] => []
  | binStr :: rest =>
      let binValue := parseInt (replaceFirst "0b" "" binStr) 2 in
      let pattern := binaryToPattern (default 0 binValue) in
      let label := getOctalLabel index in
      mkRomEntry binValue (label ++ " " ++ pattern)
      :: romEntries (S index) rest
  end.

(** The body of the loop of [convertAllCharacters] for one character. *)
Definition convertCharacter (vectorData : list VectorPoint) (char : string)
    : string + list RomEntry :=
  match convertVectorToCdcTableSimple vectorData char with
  | inl e => inl e
  | inr result => inr (romEntries 0 (binarySequence result))
  end.

End RomWriter.

(** ** The round-trip tests' own decoder and comparisons *)

Module RoundTrip.
Import Decoder.

(** [decodeCdcBinaryToVector]: the loop of [binaryToVector] with the extra
    guard [i < 22], and the two movement tests of each axis written with
    their negations. *)
Definition axisStep' (b1 b2 : bool) (pos dir : Z) : Z * Z :=
  if b1 && b2 then (pos, - dir)
  else if b1 && negb b2 then (pos + 1 * dir, dir)
  else if negb b1 && b2 then (pos + 2 * dir, dir)
  else (pos, dir).

Definition step' (st : DecodeState) (binary : Z) : DecodeState :=
  let f := decodeBinary binary in
  let '(y, vdir) := axisStep' (V1 f) (V2 f) (currentY st) (verticalDirection st) in
  let '(x, hdir) := axisStep' (H1 f) (H2 f) (currentX st) (horizontalDirection st) in
  let beam := if U f then negb (beamOn st) else beamOn st in
  mkState x y beam hdir vdir.

Fixpoint decodeLoop22 (i : nat) (st : DecodeState) (binaryData : list Z)
    (vectorData : list VectorPoint) : list VectorPoint :=
  match binaryData with
  | [] => vectorData
  | binary :: rest =>
      if (i <? 22)%nat then
        let st' := step' st binary in
        decodeLoop22 (S i) st' rest (vectorData ++ [emit st'])
      else vectorData
  end.

Definition decodeCdcBinaryToVector (binaryData : list Z)
    : list VectorPoint :=
  if (Z.of_nat (length binaryData) =? 0) then []
  else decodeLoop22 0 initialState binaryData [].

(** The test [x1 !== x2 || y1 !== y2 || b1 !== b2]. *)
Definition pointsDiffer (p q : VectorPoint) : bool :=
  let '(x1, y1, b1) := p in
  let '(x2, y2, b2) := q in
  negb (x1 =? x2) || negb (y1 =? y2) || negb (Bool.eqb b1 b2).

Fixpoint vectorsEqualLoop (vec1 vec2 : list VectorPoint) : bool :=
  match vec1, vec2 with
  | p :: rest1, q :: rest2 =>
      if pointsDiffer p q then false else vectorsEqualLoop rest1 rest2
  | _, _ => true
  end.

(** [vectorsEqual] (testRoundTrip.js): the length test, then the loop over
    the indices of [vec1]. *)
Definition vectorsEqual (vec1 vec2 : list VectorPoint) : bool :=
  if negb (Nat.eqb (length vec1) (length vec2)) then false
  else vectorsEqualLoop vec1 vec2.

(** [compareVectors]: the numbers of matching and of mismatching indices
    below the shorter length.  Its third argument, a label, is not used. *)
Record Mismatch : Type := mkMismatch {
  index : nat;
  original : VectorPoint;
  decoded : VectorPoint;
  diff : Z * Z * bool
}.

Record Comparison : Type := mkComparison {
  matches : Z;
  mismatches : list Mismatch;
  lengthDiff : Z;
  isExactMatch : bool
}.

Fixpoint compareLoop (i : nat) (original decoded : list VectorPoint)
    (matches : list nat) (mismatches : list Mismatch)
    : list nat * list Mismatch :=
  match original, decoded with
  | (x1, y1, b1) :: rest1, (x2, y2, b2) :: rest2 =>
      if (x1 =? x2) && (y1 =? y2) && Bool.eqb b1 b2
      then compareLoop (S i) rest1 rest2 (matches ++ [i]) mismatches
      else compareLoop (S i) rest1 rest2 matches
             (mismatches
              ++ [mkMismatch i (x1, y1, b1) (x2, y2, b2)
                             (x2 - x1, y2 - y1, negb (Bool.eqb b1 b2))])
  | _, _ => (matches, mismatches)
  end.

Definition compareVectors (original decoded : list VectorPoint)
    : Comparison :=
  let '(matches, mismatches) := compareLoop 0 original decoded [] [] in
  mkComparison (Z.of_nat (length matches)) mismatches
    (Z.of_nat (length decoded) - Z.of_nat (length original))
    ((Z.of_nat (length matches) =? Z.of_nat (length original))
     && (Z.of_nat (length original) =? Z.of_nat (length decoded))).

End RoundTrip.

(** ** The two-pass encoder with direction look-ahead *)

Module DirectionEncoder.
Import Decoder JSString.

(** The objects of the first pass. *)
Record Delta : Type := mkDelta {
  dx : Z;
  dy : Z;
  beamToggle : bool;
  targetX : Z;
  targetY : Z;
  targetBeam : bool
}.

Fixpoint deltasLoop (prevX prevY : Z) (prevBeam : bool)
    (vectorData : list VectorPoint) (deltas : list Delta) : list Delta :=
  match vectorData with
  | [] => deltas
  | (x, y, beam) :: rest =>
      deltasLoop x y beam rest
        (deltas ++ [mkDelta (x - prevX) (y - prevY)
                            (negb (Bool.eqb beam prevBeam)) x y beam])
  end.

(** The objects of the second pass; the flags are the numbers 0 and 1. *)
Record Stroke : Type := mkStroke {
  V1 : Z; V2 : Z; H1 : Z; H2 : Z; U : Z;
  note : string
}.

(** The two flags for a move of magnitude [a]: 1, 2, or both for 3. *)
Definition moveFlags (a : Z) : Z * Z :=
  if a =? 1 then (1, 0)
  else if a =? 2 then (0, 1)
  else if a =? 3 then (1, 1)
  else (0, 0).

Definition sign (d : Z) : string := if d >? 0 then "+" else "-".

(** The look-ahead on one axis: when the next move on it goes against the
    current direction, OR the toggle into this stroke's flags. *)
Definition lookAhead (axis : string) (nextDelta : Z) (b1 b2 dir : Z)
    (toggleNote : string) : Z * Z * Z * string :=
  if negb (nextDelta =? 0) then
    let nextDir := if nextDelta >? 0 then 1 else -1 in
    if negb (nextDir =? dir)
    then (Z.lor b1 1, Z.lor b2 1, nextDir,
          (toggleNote ++ " " ++ axis ++ " " ++ sign dir ++ "→"
           ++ sign nextDir)%string)
    else (b1, b2, dir, toggleNote)
  else (b1, b2, dir, toggleNote).

(** The direction update for the move of this stroke itself: only at the
    first stroke. *)
Definition ownDirection (i : nat) (delta dir : Z) : Z :=
  if negb (delta =? 0) then
    let currentDir := if delta >? 0 then 1 else -1 in
    if negb (dir =? currentDir) && Nat.eqb i 0 then currentDir else dir
  else dir.

Fixpoint strokesLoop (i : nat) (hDir vDir : Z) (deltas : list Delta)
    (binaryResult : list Stroke) : list Stroke :=
  match deltas with
  | [] => binaryResult
  | d :: rest =>
      let U := if beamToggle d then 1 else 0 in
      let '(V1, V2) := moveFlags (Z.abs (dy d)) in
      let '(H1, H2) := moveFlags (Z.abs (dx d)) in
      let '(H1, H2, hDir, V1, V2, vDir, toggleNote) :=
        match rest with
        | next :: _ =>
            let '(H1, H2, hDir, toggleNote) :=
              lookAhead "H" (dx next) H1 H2 hDir "" in
            let '(V1, V2, vDir, toggleNote) :=
              lookAhead "V" (dy next) V1 V2 vDir toggleNote in
            (H1, H2, hDir, V1, V2, vDir, toggleNote)
        | [] => (H1, H2, hDir, V1, V2, vDir, ""%string)
        end in
      let hDir := ownDirection i (dx d) hDir in
      let vDir := ownDirection i (dy d) vDir in
      let note :=
        ("Move to (" ++ numberToString 10 (targetX d) ++ ","
         ++ numberToString 10 (targetY d) ++ ") beam="
         ++ (if targetBeam d then "ON" else "OFF"))%string in
      let note :=
        if negb (String.eqb toggleNote "")
        then (note ++ " + Toggle:" ++ toggleNote)%string
        else note in
      strokesLoop (S i) hDir vDir rest
                  (binaryResult ++ [mkStroke V1 V2 H1 H2 U note])
  end.

Definition padding : Stroke := mkStroke 0 0 0 0 0 "Padding".

(** [convertVectorToCdcBinary]; [inl] is the thrown [Error].  The warning
    printed before truncating is not part of the result. *)
Definition convertVectorToCdcBinary (vectorData : list VectorPoint)
    (characterLabel : string) : string + list Stroke :=
  if (Z.of_nat (length vectorData) =? 0)
  then inl "Invalid vector data provided"%string
  else
    let deltas := deltasLoop 0 0 false vectorData [] in
    let binaryResult := strokesLoop 0 1 1 deltas [] in
    let binaryResult :=
      binaryResult ++ replicate (22 - length binaryResult) padding in
    inr (take 22 binaryResult).

(** The [value] of [binaryToFormatted]. *)
Definition strokeValue (entry : Stroke) : Z :=
  Z.lor (Z.lor (Z.lor (Z.lor (Z.shiftl (V1 entry) 4) (Z.shiftl (V2 entry) 3))
                      (Z.shiftl (H1 entry) 2))
               (Z.shiftl (H2 entry) 1))
        (U entry).

(** The [pattern] of [binaryToFormatted]. *)
Definition strokePattern (entry : Stroke) : string :=
  fold_right (fun (b : Z) acc =>
                String (if b =? 0 then "."%char else "X"%char) acc)
             ""%string [V1 entry; V2 entry; H1 entry; H2 entry; U entry].

(** Each flag of a stroke is 0 or 1. *)
Definition flagsAreBits (entry : Stroke) : Prop :=
  (V1 entry = 0 \/ V1 entry = 1) /\ (V2 entry = 0 \/ V2 entry = 1)
  /\ (H1 entry = 0 \/ H1 entry = 1) /\ (H2 entry = 0 \/ H2 entry = 1)
  /\ (U entry = 0 \/ U entry = 1).

(** Whether each point's beam differs from the one before it. *)
Fixpoint beamToggles (prevBeam : bool) (vectorData : list VectorPoint)
    : list bool :=
  match vectorData with
  | [] => []
  | (_, _, beam) :: rest =>
      negb (Bool.eqb beam prevBeam) :: beamToggles beam rest
  end.

End DirectionEncoder.

(** * Properties *)

Import Decoder Triplets Renderer.

(** ** Decoder *)

Lemma decodeLoop_acc (binaryData : list Z) :
  forall st acc, decodeLoop st binaryData acc = acc ++ decodeFrom st binaryData.
Proof.
  unfold decodeFrom.
  induction binaryData as [|b rest IH]; intros st acc; simpl.
  - now rewrite app_nil_r.
  - rewrite (IH _ (acc ++ _)), (IH _ [emit _]).
    now rewrite <- app_assoc.
Qed.

Lemma decodeFrom_cons st b rest :
  decodeFrom st (b :: rest) = emit (step st b) :: decodeFrom (step st b) rest.
Proof. unfold decodeFrom at 1. simpl. now rewrite decodeLoop_acc. Qed.

Lemma decodeFrom_nil st : decodeFrom st [] = [].
Proof. reflexivity. Qed.

Lemma binaryToVector_decodeFrom g :
  binaryToVector g = decodeFrom initialState g.
Proof. destruct g; reflexivity. Qed.

Lemma decodeFrom_length g : forall st, length (decodeFrom st g) = length g.
Proof.
  induction g as [|b rest IH]; intros st; [reflexivity|].
  rewrite decodeFrom_cons. simpl. now rewrite IH.
Qed.

Lemma decodeFrom_app pre : forall st post,
  decodeFrom st (pre ++ post)
  = decodeFrom st pre ++ decodeFrom (stateAfter st pre) post.
Proof.
  induction pre as [|b pre IH]; intros st post; [reflexivity|].
  simpl app. rewrite !decodeFrom_cons, IH. reflexivity.
Qed.

Lemma decodeFrom_prefixes g : forall st,
  decodeFrom st g
  = map (fun k => emit (stateAfter st (take (S k) g))) (seq 0 (length g)).
Proof.
  induction g as [|b rest IH]; intros st; [reflexivity|].
  rewrite decodeFrom_cons. simpl. f_equal.
  rewrite <- seq_shift, map_map. apply IH.
Qed.

(** [Boolean((binary >> k) & 1)] reads bit [k]. *)
Lemma flag_testbit b k : 0 <= k -> flag b k = Z.testbit b k.
Proof.
  intros Hk. unfold flag.
  change 1 with (Z.ones 1). rewrite Z.land_ones by lia.
  change (2 ^ 1) with 2. rewrite <- Z.bit0_mod, Z.shiftr_spec by lia.
  rewrite Z.add_0_l. destruct (Z.testbit b k); reflexivity.
Qed.

Lemma flag_mask b k : 0 <= k < 5 -> flag (Z.land b 31) k = flag b k.
Proof.
  intros Hk. rewrite !flag_testbit by lia.
  rewrite Z.land_spec. change 31 with (Z.ones 5).
  rewrite Z.ones_spec_low by lia. apply andb_true_r.
Qed.

Lemma decodeBinary_mask b : decodeBinary (Z.land b 31) = decodeBinary b.
Proof. unfold decodeBinary. rewrite !flag_mask by lia. reflexivity. Qed.

Lemma step_mask st b : step st (Z.land b 31) = step st b.
Proof. unfold step. now rewrite decodeBinary_mask. Qed.

Lemma axisStep_bound b1 b2 pos dir :
  Z.abs dir = 1 ->
  Z.abs (fst (axisStep b1 b2 pos dir) - pos) <= 2
  /\ Z.abs (snd (axisStep b1 b2 pos dir)) = 1.
Proof.
  intros Hd. unfold axisStep.
  destruct b1, b2; simpl; lia.
Qed.

Lemma step_bound st b :
  unitDirections st ->
  unitDirections (step st b)
  /\ Z.abs (currentX (step st b) - currentX st) <= 2
  /\ Z.abs (currentY (step st b) - currentY st) <= 2.
Proof.
  intros [Hh Hv]. unfold step, unitDirections.
  pose proof (axisStep_bound (V1 (decodeBinary b)) (V2 (decodeBinary b))
                (currentY st) _ Hv) as Bv.
  pose proof (axisStep_bound (H1 (decodeBinary b)) (H2 (decodeBinary b))
                (currentX st) _ Hh) as Bh.
  destruct (axisStep (V1 _) _ _ _) as [y vd].
  destruct (axisStep (H1 _) _ _ _) as [x hd].
  simpl in *. lia.
Qed.

Lemma decodeFrom_lookup g : forall st i p,
  decodeFrom st g !! i = Some p ->
  p = emit (stateAfter st (take (S i) g)).
Proof.
  intros st i p Hp. rewrite decodeFrom_prefixes in Hp.
  rewrite list_lookup_fmap in Hp.
  destruct (seq 0 (length g) !! i) as [k|] eqn:Hk; [|discriminate].
  apply lookup_seq in Hk as [-> _]. simpl in Hp. congruence.
Qed.

Lemma stateAfter_unit strokes : forall st,
  unitDirections st -> unitDirections (stateAfter st strokes).
Proof.
  induction strokes as [|b rest IH]; intros st Hst; [exact Hst|].
  apply IH. now apply step_bound.
Qed.

Lemma stateAfter_snoc st strokes b :
  stateAfter st (strokes ++ [b]) = step (stateAfter st strokes) b.
Proof. unfold stateAfter. now rewrite fold_left_app. Qed.

(** C1.  A stroke with both bits of an axis set negates that axis's
    direction and leaves its coordinate alone.  Every other stroke keeps
    the direction and moves the coordinate by 1, by 2 or by 0 times the
    direction the state carries, according to the one bit set or none, so
    a toggle shows in every later movement on that axis until the next
    toggle.  The beam is flipped exactly by the strokes with the beam bit.
    Decoding [[0b11000, 0b10000]] gives [(0,0,false)] and then
    [(0,-1,false)]; with a 2-unit stroke after the toggle the second point
    is [(0,-2,false)], and an idle stroke in between changes nothing. *)
Theorem toggle_then_move (st : DecodeState) (b : Z) :
  (V1 (decodeBinary b) = true -> V2 (decodeBinary b) = true ->
     currentY (step st b) = currentY st
     /\ verticalDirection (step st b) = - verticalDirection st)
  /\ (H1 (decodeBinary b) = true -> H2 (decodeBinary b) = true ->
     currentX (step st b) = currentX st
     /\ horizontalDirection (step st b) = - horizontalDirection st)
  /\ (V1 (decodeBinary b) = true -> V2 (decodeBinary b) = false ->
     currentY (step st b) = currentY st + 1 * verticalDirection st
     /\ verticalDirection (step st b) = verticalDirection st)
  /\ (H1 (decodeBinary b) = true -> H2 (decodeBinary b) = false ->
     currentX (step st b) = currentX st + 1 * horizontalDirection st
     /\ horizontalDirection (step st b) = horizontalDirection st)
  /\ (V1 (decodeBinary b) = false -> V2 (decodeBinary b) = true ->
     currentY (step st b) = currentY st + 2 * verticalDirection st
     /\ verticalDirection (step st b) = verticalDirection st)
  /\ (H1 (decodeBinary b) = false -> H2 (decodeBinary b) = true ->
     currentX (step st b) = currentX st + 2 * horizontalDirection st
     /\ horizontalDirection (step st b) = horizontalDirection st)
  /\ (V1 (decodeBinary b) = false -> V2 (decodeBinary b) = false ->
     currentY (step st b) = currentY st
     /\ verticalDirection (step st b) = verticalDirection st)
  /\ (H1 (decodeBinary b) = false -> H2 (decodeBinary b) = false ->
     currentX (step st b) = currentX st
     /\ horizontalDirection (step st b) = horizontalDirection st)
  /\ beamOn (step st b)
     = (if U (decodeBinary b) then negb (beamOn st) else beamOn st)
  /\ binaryToVector [24; 16] = [(0, 0, false); (0, -1, false)]
  /\ binaryToVector [24; 8] = [(0, 0, false); (0, -2, false)]
  /\ binaryToVector [24; 4; 16]
     = [(0, 0, false); (1, 0, false); (1, -1, false)]
  /\ binaryToVector [6; 0; 2] = [(0, 0, false); (0, 0, false); (-2, 0, false)].
Proof.
  unfold step, axisStep.
  repeat split; try reflexivity;
    destruct (V1 (decodeBinary b)), (V2 (decodeBinary b)),
             (H1 (decodeBinary b)), (H2 (decodeBinary b));
    simpl; congruence.
Qed.

Lemma toggle_then_move_witness :
  currentY (step initialState 24) = 0
  /\ verticalDirection (step initialState 24) = -1
  /\ currentY (step (step initialState 24) 16) = -1
  /\ currentY (step (step initialState 24) 8) = -2
  /\ verticalDirection (step (step initialState 24) 4) = -1.
Proof.
  destruct (toggle_then_move initialState 24) as [Hv _].
  destruct (Hv eq_refl eq_refl) as [Hy Hd].
  destruct (toggle_then_move (step initialState 24) 16)
    as (_ & _ & Hm & _).
  destruct (Hm eq_refl eq_refl) as [Hy' _].
  destruct (toggle_then_move (step initialState 24) 8)
    as (_ & _ & _ & _ & Hm2 & _).
  destruct (Hm2 eq_refl eq_refl) as [Hy2 _].
  destruct (toggle_then_move (step initialState 24) 4)
    as (_ & _ & _ & _ & _ & _ & Hidle & _).
  destruct (Hidle eq_refl eq_refl) as [_ Hd'].
  exact (conj Hy (conj Hd (conj Hy' (conj Hy2 Hd')))).
Defined.

(** C2.  The decoded sequence is as long as the glyph; its point at
    index [k] is the one emitted after the first [k + 1] stroke codes; the
    empty glyph decodes to the empty sequence. *)
Theorem binaryToVector_length (g : list Z) :
  length (binaryToVector g) = length g
  /\ binaryToVector g
     = map (fun k => emit (stateAfter initialState (take (S k) g)))
           (seq 0 (length g))
  /\ binaryToVector [] = [].
Proof.
  rewrite binaryToVector_decodeFrom. split; [apply decodeFrom_length|].
  split; [apply decodeFrom_prefixes | reflexivity].
Qed.

(** C3.  For a byte [b] anywhere in a glyph and any state the loop is
    entered in, the decoder gives the same points for [b] and for
    [b & 0b11111]; the decoder is a total function and its output has one
    point per stroke code whatever the bytes are. *)
Theorem decode_masks_low_bits (st : DecodeState) (pre post : list Z) (b : Z)
    (Hb : 0 <= b <= 255) :
  decodeFrom st (pre ++ b :: post)
  = decodeFrom st (pre ++ Z.land b 31 :: post)
  /\ binaryToVector (pre ++ b :: post)
     = binaryToVector (pre ++ Z.land b 31 :: post)
  /\ step st b = step st (Z.land b 31)
  /\ length (decodeFrom st (pre ++ b :: post)) = length (pre ++ b :: post).
Proof.
  assert (Hgen : forall s, decodeFrom s (pre ++ b :: post)
                           = decodeFrom s (pre ++ Z.land b 31 :: post)).
  { intros s. rewrite !decodeFrom_app, !decodeFrom_cons.
    now rewrite step_mask. }
  split; [apply Hgen|].
  split; [rewrite !binaryToVector_decodeFrom; apply Hgen|].
  split; [now rewrite step_mask | apply decodeFrom_length].
Qed.

Lemma decode_masks_low_bits_witness :
  decodeFrom initialState ([10] ++ 241 :: [4])
  = decodeFrom initialState ([10] ++ 17 :: [4]).
Proof.
  apply (decode_masks_low_bits initialState [10] [4] 241).
  lia.
Defined.

(** C10.  Each decoded point differs from the point before it (from the
    origin for the first point) by at most 2 in [x] and at most 2 in [y]. *)
Theorem decoded_steps_bounded (g : list Z) (i : nat) (x y : Z) (beam : bool)
    (Hi : binaryToVector g !! i = Some (x, y, beam)) :
  Z.abs (x - fst (previousPosition (binaryToVector g) i)) <= 2
  /\ Z.abs (y - snd (previousPosition (binaryToVector g) i)) <= 2.
Proof.
  rewrite binaryToVector_decodeFrom in *.
  assert (Hlen : (i < length g)%nat).
  { apply lookup_lt_Some in Hi. now rewrite decodeFrom_length in Hi. }
  apply decodeFrom_lookup in Hi.
  destruct (lookup_lt_is_Some_2 g i Hlen) as [b Hb].
  rewrite (take_S_r _ _ _ Hb), stateAfter_snoc in Hi.
  pose proof (stateAfter_unit (take i g) initialState
                (conj eq_refl eq_refl)) as Hu.
  destruct (step_bound _ b Hu) as (_ & Bx & By).
  injection Hi as -> -> _.
  destruct i as [|j]; simpl previousPosition.
  - simpl in *. lia.
  - destruct (decodeFrom initialState g !! j) as [[[px py] pb]|] eqn:Hj.
    + apply decodeFrom_lookup in Hj. injection Hj as -> -> _.
      simpl. lia.
    + apply lookup_ge_None in Hj. rewrite decodeFrom_length in Hj. lia.
Qed.

Lemma decoded_steps_bounded_witness :
  Z.abs (4 - fst (previousPosition (binaryToVector [10; 10]) 1)) <= 2
  /\ Z.abs (4 - snd (previousPosition (binaryToVector [10; 10]) 1)) <= 2.
Proof.
  apply (decoded_steps_bounded [10; 10] 1 4 4 false).
  reflexivity.
Defined.

Lemma lookupInherited_space : lookupInherited objectPrototype " " = None.
Proof. reflexivity. Qed.

(** No member of [Object.prototype] has a one-character name. *)
Lemma lookupInherited_character (c : string) :
  String.length c = 1%nat -> lookupInherited objectPrototype c = None.
Proof.
  destruct c as [|a [|a' rest]]; try discriminate. intros _.
  unfold objectPrototype. cbn [lookupInherited].
  repeat match goal with
         | |- context [String.eqb ?n ?k] =>
             replace (String.eqb n k) with false
               by (symmetry; apply String.eqb_neq; discriminate)
         end.
  reflexivity.
Qed.

(** For a key that has no entry in the table and is not the name of a
    member of [Object.prototype], or is a single character,
    [getCharacterBinary] gives what the lookup of the space character
    gives: its entry, or [undefined] when the table has none. *)
Lemma getCharacterBinary_fallback (cdcRomBinary : gmap string (list Z))
    (c : string) (Habsent : cdcRomBinary !! c = None)
    (Hown : lookupInherited objectPrototype c = None
            \/ String.length c = 1%nat) :
  getCharacterBinary cdcRomBinary c = getProperty cdcRomBinary " ".
Proof.
  assert (Hc : lookupInherited objectPrototype c = None)
    by (destruct Hown; [assumption | now apply lookupInherited_character]).
  unfold getCharacterBinary, getProperty at 1. now rewrite Habsent, Hc.
Qed.


(** ** Triplets *)

Lemma vectorToTriplets_map pts :
  vectorToTriplets pts
  = map (fun '(x, y, beamOn) => (x, y, if (beamOn : bool) then 1 else 0)) pts.
Proof. destruct pts; reflexivity. Qed.

(** C8.  [vectorToTriplets] keeps length and order and works point by
    point, for every point list, the empty one included: the output is as
    long as the input (empty for the empty input); past the end both have
    nothing; and the triplet at an index has the [x] and [y] of the point
    at that index, and intensity 1 exactly when the point's beam is on, 0
    otherwise. *)
Theorem vectorToTriplets_pointwise (pts : list VectorPoint) :
  length (vectorToTriplets pts) = length pts
  /\ vectorToTriplets [] = []
  /\ forall i : nat,
       (pts !! i = None -> vectorToTriplets pts !! i = None)
       /\ forall (x y : Z) (beam : bool),
            pts !! i = Some (x, y, beam) ->
            exists n, vectorToTriplets pts !! i = Some (x, y, n)
                      /\ (n = 1 <-> beam = true)
                      /\ (n = 0 <-> beam = false).
Proof.
  rewrite vectorToTriplets_map. split; [apply length_map|].
  split; [reflexivity|]. intros i. split.
  - intros Hi. rewrite list_lookup_fmap, Hi. reflexivity.
  - intros x y beam Hi. exists (if beam then 1 else 0).
    rewrite list_lookup_fmap, Hi. simpl.
    destruct beam; repeat split; intros; congruence.
Qed.

Lemma vectorToTriplets_pointwise_witness :
  exists n, vectorToTriplets [(2, 2, false); (4, 4, true)] !! 1%nat
            = Some (4, 4, n)
            /\ (n = 1 <-> true = true)
            /\ (n = 0 <-> true = false).
Proof.
  destruct (vectorToTriplets_pointwise [(2, 2, false); (4, 4, true)])
    as (_ & _ & Hi).
  destruct (Hi 1%nat) as [_ Hsome].
  apply (Hsome 4 4 true). reflexivity.
Defined.

(** The loop of [findDwellPoints] over a range of indices keeps the
    indices that pass the test, in order. *)
Lemma dwell_fold ts (idx : list nat) : forall dwells,
  fold_left (dwellBody ts) idx dwells
  = dwells ++ List.filter
                (fun i => match ts !! i, ts !! (i - 1)%nat with
                          | Some cur, Some prev => dwellTest cur prev
                          | _, _ => false
                          end) idx.
Proof.
  induction idx as [|i idx IH]; intros dwells; simpl.
  - now rewrite app_nil_r.
  - rewrite IH. unfold dwellBody.
    destruct (ts !! i) as [cur|]; [|reflexivity].
    destruct (ts !! (i - 1)%nat) as [prev|]; [|reflexivity].
    destruct (dwellTest cur prev); [|reflexivity].
    now rewrite <- app_assoc.
Qed.

Lemma filter_seq_sorted (f : nat -> bool) (len : nat) : forall start,
  StronglySorted lt (List.filter f (seq start len)).
Proof.
  induction len as [|len IH]; intros start; simpl; [constructor|].
  destruct (f start); [|apply IH].
  constructor; [apply IH|].
  apply List.Forall_forall. intros j Hj.
  apply filter_In in Hj as [Hj _]. apply in_seq in Hj. lia.
Qed.

(** C6.  On triplets with non-negative intensity, [findDwellPoints]
    returns, in increasing order and once each, exactly the indices
    [i >= 1] at which the position equals the position at [i - 1] and the
    intensities at [i] and at [i - 1] are both nonzero; index 0 is never
    returned; [[(3,3,1), (3,3,1), (4,3,1)]] gives [[1]]. *)
Theorem findDwellPoints_exact (ts : list Triplet)
    (Hwf : Forall (fun t : Triplet => 0 <= snd t) ts) :
  (forall i : nat,
      In i (findDwellPoints ts)
      <-> (1 <= i)%nat
          /\ exists x y a b,
               ts !! i = Some (x, y, a)
               /\ ts !! (i - 1)%nat = Some (x, y, b)
               /\ a <> 0 /\ b <> 0)
  /\ StronglySorted lt (findDwellPoints ts)
  /\ ~ In 0%nat (findDwellPoints ts)
  /\ findDwellPoints [(3, 3, 1); (3, 3, 1); (4, 3, 1)] = [1%nat].
Proof.
  unfold findDwellPoints. rewrite dwell_fold. simpl app.
  assert (Hmem : forall i : nat,
      In i (List.filter
              (fun i => match ts !! i, ts !! (i - 1)%nat with
                        | Some cur, Some prev => dwellTest cur prev
                        | _, _ => false
                        end) (seq 1 (length ts - 1)))
      <-> (1 <= i)%nat
          /\ exists x y a b,
               ts !! i = Some (x, y, a)
               /\ ts !! (i - 1)%nat = Some (x, y, b)
               /\ a <> 0 /\ b <> 0).
  { intros i. rewrite filter_In, in_seq. split.
    - intros [Hr Ht].
      destruct (ts !! i) as [[[x y] a]|] eqn:Hc; [|discriminate].
      destruct (ts !! (i - 1)%nat) as [[[px py] b]|] eqn:Hp; [|discriminate].
      unfold dwellTest in Ht.
      apply andb_prop in Ht as [Ht Hb]. apply andb_prop in Ht as [Ht Ha].
      apply andb_prop in Ht as [Hx Hy].
      apply Z.eqb_eq in Hx, Hy. subst px py.
      apply Z.gtb_lt in Ha, Hb.
      split; [lia|]. exists x, y, a, b. repeat split; auto; lia.
    - intros (Hi & x & y & a & b & Hc & Hp & Ha & Hb).
      pose proof (lookup_lt_Some _ _ _ Hc) as Hlt.
      split; [lia|]. rewrite Hc, Hp. unfold dwellTest.
      assert (0 <= a).
      { apply (proj1 (List.Forall_forall _ ts) Hwf (x, y, a)).
        apply list_elem_of_In. eapply list_elem_of_lookup_2; eauto. }
      assert (0 <= b).
      { apply (proj1 (List.Forall_forall _ ts) Hwf (x, y, b)).
        apply list_elem_of_In. eapply list_elem_of_lookup_2; eauto. }
      rewrite !Z.eqb_refl. simpl.
      apply andb_true_intro. split; apply Z.gtb_lt; lia. }
  split; [exact Hmem|].
  split; [apply filter_seq_sorted|].
  split; [|reflexivity].
  intros H0. apply Hmem in H0 as [H0 _]. lia.
Qed.

Lemma findDwellPoints_exact_witness :
  In 1%nat (findDwellPoints [(3, 3, 1); (3, 3, 1); (4, 3, 1)])
  /\ ~ In 2%nat (findDwellPoints [(3, 3, 1); (3, 3, 1); (4, 3, 1)]).
Proof.
  assert (Hwf : Forall (fun t : Triplet => 0 <= snd t)
                       [(3, 3, 1); (3, 3, 1); (4, 3, 1)]).
  { repeat constructor; simpl; lia. }
  destruct (findDwellPoints_exact _ Hwf) as (Hmem & _).
  split.
  - apply Hmem. split; [lia|]. exists 3, 3, 1, 1. repeat split; lia.
  - intros H2. apply Hmem in H2 as (_ & x & y & a & b & Hc & Hp & _).
    simpl in Hc, Hp. congruence.
Defined.

Section BeamOnDistanceFacts.
Variable num : Type.
Variable zero : num.
Variable add : num -> num -> num.
Variable sqrt : Z -> num.

(** What one more triplet at the end adds to the accumulated distance. *)
Lemma distanceLoop_snoc (ts : list Triplet) (x y i : Z) :
  forall acc px py,
    distanceLoop num add sqrt acc px py (ts ++ [(x, y, i)])
    = let '(qx, qy) := match last ts with
                       | Some (lx, ly, _) => (lx, ly)
                       | None => (px, py)
                       end in
      let total := distanceLoop num add sqrt acc px py ts in
      if i >? 0
      then add total (sqrt ((x - qx) * (x - qx) + (y - qy) * (y - qy)))
      else total.
Proof.
  induction ts as [|[[tx ty] ti] rest IH]; intros acc px py.
  - reflexivity.
  - simpl app. simpl distanceLoop. rewrite IH.
    destruct rest as [|u rest']; [reflexivity|].
    change (last ((tx, ty, ti) :: u :: rest')) with (last (u :: rest')).
    destruct (last (u :: rest')) as [[[lx ly] li]|] eqn:Hl; [reflexivity|].
    apply last_None in Hl. discriminate.
Qed.

Lemma predecessor_last (ts : list Triplet) (t : Triplet) :
  predecessor (ts ++ [t]) (length ts)
  = match last ts with
    | Some (lx, ly, _) => (lx, ly)
    | None => (0, 0)
    end.
Proof.
  rewrite last_lookup. unfold predecessor.
  destruct (length ts) as [|j] eqn:Hlen.
  - destruct ts; [reflexivity | discriminate].
  - simpl pred. rewrite lookup_app_l by lia.
    destruct (ts !! j) as [[[lx ly] li]|] eqn:Hj; [reflexivity|].
    apply lookup_ge_None in Hj. lia.
Qed.

Lemma segmentLength_prefix (ts : list Triplet) (t : Triplet) (k : nat) :
  (k < length ts)%nat ->
  segmentLength num zero sqrt (ts ++ [t]) k = segmentLength num zero sqrt ts k.
Proof.
  intros Hk. unfold segmentLength, predecessor.
  rewrite lookup_app_l by lia.
  destruct k as [|j]; [reflexivity|].
  rewrite lookup_app_l by lia. reflexivity.
Qed.

Lemma beamOnAt_prefix (ts : list Triplet) (t : Triplet) (k : nat) :
  (k < length ts)%nat -> beamOnAt (ts ++ [t]) k = beamOnAt ts k.
Proof. intros Hk. unfold beamOnAt. now rewrite lookup_app_l by lia. Qed.

(** C7.  [calculateBeamOnDistance] is the sum, over the indices whose
    triplet has intensity greater than 0, of the Euclidean distance between
    the point at that index and its predecessor; the predecessor of index 0
    is the origin and that of any later index is the position of the
    triplet just before it, beam on or off. *)
Theorem calculateBeamOnDistance_sum (ts : list Triplet) :
  calculateBeamOnDistance num zero add sqrt ts
  = sum num zero add
      (map (segmentLength num zero sqrt ts)
           (List.filter (beamOnAt ts) (seq 0 (length ts)))).
Proof.
  unfold calculateBeamOnDistance, sum.
  induction ts as [|[[x y] i] ts IH] using rev_ind; [reflexivity|].
  rewrite distanceLoop_snoc, <- predecessor_last with (t := (x, y, i)).
  rewrite length_app, Nat.add_comm. simpl length.
  rewrite seq_S, List.filter_app, map_app, fold_left_app. simpl seq.
  assert (Hpre :
    map (segmentLength num zero sqrt (ts ++ [(x, y, i)]))
        (List.filter (beamOnAt (ts ++ [(x, y, i)])) (seq 0 (length ts)))
    = map (segmentLength num zero sqrt ts)
          (List.filter (beamOnAt ts) (seq 0 (length ts)))).
  { rewrite (filter_ext_in (beamOnAt (ts ++ [(x, y, i)])) (beamOnAt ts)).
    - apply map_ext_in. intros k Hk. apply filter_In in Hk as [Hk _].
      apply in_seq in Hk. apply segmentLength_prefix. lia.
    - intros k Hk. apply in_seq in Hk. apply beamOnAt_prefix. lia. }
  rewrite Hpre, <- IH.
  assert (Hlast : (ts ++ [(x, y, i)]) !! length ts = Some (x, y, i)).
  { rewrite lookup_app_r by lia. now rewrite Nat.sub_diag. }
  simpl List.filter. unfold beamOnAt at 1. rewrite Hlast.
  destruct (predecessor (ts ++ [(x, y, i)]) (length ts)) as [qx qy] eqn:Hq.
  destruct (i >? 0); simpl; [|reflexivity].
  unfold segmentLength. now rewrite Hlast, Hq.
Qed.

End BeamOnDistanceFacts.

(** With integer square roots standing in for [Math.sqrt]: a 3-4-5 leg
    with the beam on, a blanked move, and a dwell. *)
Example calculateBeamOnDistance_example :
  calculateBeamOnDistance Z 0 Z.add Z.sqrt
    [(3, 4, 1); (6, 8, 0); (6, 8, 1); (6, 18, 1)] = 15.
Proof. reflexivity. Qed.

(** ** Line drawing *)

(** The imperative loop plots the points of [walk], in order. *)
Lemma lineLoop_walk (plot : Z -> Z -> Ctx -> Ctx) x1 y1 dx dy sx sy :
  forall fuel x y err ctx,
    lineLoop plot fuel x1 y1 dx dy sx sy x y err ctx
    = (fun pts => fold_left (fun c p => plot (fst p) (snd p) c) pts ctx)
        <$> walk fuel x1 y1 dx dy sx sy x y err.
Proof.
  induction fuel as [|fuel IH]; intros x y err ctx; [reflexivity|].
  simpl. destruct ((x =? x1) && (y =? y1)); [reflexivity|].
  destruct (2 * err >? - dy), (2 * err <? dx); rewrite IH;
    match goal with
    | |- context [walk ?f ?a ?b ?c ?d ?e ?g ?h ?i ?j] =>
        destruct (walk f a b c d e g h i j); reflexivity
    end.
Qed.

(** More fuel does not change a finished walk. *)
Lemma walk_more_fuel x1 y1 dx dy sx sy :
  forall fuel fuel' x y err pts,
    walk fuel x1 y1 dx dy sx sy x y err = Some pts ->
    (fuel <= fuel')%nat ->
    walk fuel' x1 y1 dx dy sx sy x y err = Some pts.
Proof.
  induction fuel as [|fuel IH]; intros fuel' x y err pts Hw Hle;
    [discriminate|].
  destruct fuel' as [|fuel']; [lia|].
  simpl in *. destruct ((x =? x1) && (y =? y1)); [exact Hw|].
  destruct (2 * err >? - dy), (2 * err <? dx);
    match type of Hw with
    | context [walk fuel ?a ?b ?c ?d ?e ?g ?h ?i ?j] =>
        destruct (walk fuel a b c d e g h i j) as [l|] eqn:Hl;
        [|discriminate];
        rewrite (IH fuel' _ _ _ l Hl) by lia; exact Hw
    end.
Qed.

(** The walk reaches its end point: with [rx] steps left in [x] and [ry]
    in [y], and the error term in step with them, [rx + ry + 1]
    iterations are enough. *)
Lemma walk_finishes x1 y1 dx dy sx sy :
  (sx = 1 \/ sx = -1) -> (sy = 1 \/ sy = -1) ->
  forall fuel x y err rx ry,
    0 <= rx <= dx -> 0 <= ry <= dy ->
    x1 - x = sx * rx -> y1 - y = sy * ry ->
    err = dx - dy + rx * dy - ry * dx ->
    (Z.to_nat (rx + ry + 1) <= fuel)%nat ->
    is_Some (walk fuel x1 y1 dx dy sx sy x y err).
Proof.
  intros Hsx Hsy.
  induction fuel as [|fuel IH]; intros x y err rx ry Hrx Hry Hx Hy Herr Hf;
    [lia|].
  simpl.
  destruct ((x =? x1) && (y =? y1)) eqn:Hend; [eexists; reflexivity|].
  assert (Hleft : 1 <= rx + ry).
  { apply andb_false_iff in Hend as [Hne|Hne]; apply Z.eqb_neq in Hne; nia. }
  destruct (2 * err >? - dy) eqn:Hgx; destruct (2 * err <? dx) eqn:Hgy.
  - apply Z.gtb_lt in Hgx. apply Z.ltb_lt in Hgy.
    assert (1 <= rx) by nia. assert (1 <= ry) by nia.
    destruct (IH (x + sx) (y + sy) (err - dy + dx) (rx - 1) (ry - 1))
      as [pts Hp]; try nia.
    rewrite Hp. eexists; reflexivity.
  - apply Z.gtb_lt in Hgx. apply Z.ltb_ge in Hgy.
    assert (1 <= rx) by nia.
    destruct (IH (x + sx) y (err - dy) (rx - 1) ry) as [pts Hp]; try nia.
    rewrite Hp. eexists; reflexivity.
  - assert (2 * err <= - dy) by (rewrite Z.gtb_ltb in Hgx; apply Z.ltb_ge in Hgx; lia).
    apply Z.ltb_lt in Hgy.
    assert (1 <= ry) by nia.
    destruct (IH x (y + sy) (err + dx) rx (ry - 1)) as [pts Hp]; try nia.
    rewrite Hp. eexists; reflexivity.
  - assert (2 * err <= - dy) by (rewrite Z.gtb_ltb in Hgx; apply Z.ltb_ge in Hgx; lia).
    apply Z.ltb_ge in Hgy. exfalso. nia.
Qed.

(** With enough fuel, a line function returns, having plotted the points
    of the Bresenham line in order. *)
Lemma drawLine_bresenham (plot : Z -> Z -> Ctx -> Ctx) fuel ctx x0 y0 x1 y1 :
  (lineFuel x0 y0 x1 y1 <= fuel)%nat ->
  drawLine plot fuel ctx x0 y0 x1 y1
  = Some (fold_left (fun c p => plot (fst p) (snd p) c)
                    (bresenham x0 y0 x1 y1) ctx).
Proof.
  intros Hf. unfold drawLine, bresenham, lineFuel in *.
  rewrite lineLoop_walk.
  set (dx := Z.abs (x1 - x0)) in *. set (dy := Z.abs (y1 - y0)) in *.
  set (sx := if x0 <? x1 then 1 else -1).
  set (sy := if y0 <? y1 then 1 else -1).
  destruct (walk_finishes x1 y1 dx dy sx sy) with
    (fuel := Z.to_nat (dx + dy + 1)) (x := x0) (y := y0) (err := dx - dy)
    (rx := dx) (ry := dy) as [pts Hp];
    try (subst dx dy sx sy; lia).
  - subst sx. destruct (x0 <? x1); auto.
  - subst sy. destruct (y0 <? y1); auto.
  - subst dx sx. destruct (Z.ltb_spec x0 x1); lia.
  - subst dy sy. destruct (Z.ltb_spec y0 y1); lia.
  - rewrite Hp. rewrite (walk_more_fuel _ _ _ _ _ _ _ fuel _ _ _ _ Hp Hf).
    reflexivity.
Qed.

(** Plotting a list of points with [fillRect] appends one rectangle per
    point and changes nothing else of the context. *)
Lemma fold_fillRect (f : Z * Z -> Z * Z * Z * Z) (pts : list (Z * Z)) :
  forall ctx,
    fold_left (fun c p => let '(x, y, w, h) := f p in fillRect x y w h c)
              pts ctx
    = mkCtx (fillStyle ctx) (strokeStyle ctx) (lineWidth ctx) (path ctx)
            (ops ctx ++ map (fun p => let '(x, y, w, h) := f p in
                                      FillRect (fillStyle ctx) x y w h) pts).
Proof.
  induction pts as [|p pts IH]; intros ctx; simpl.
  - rewrite app_nil_r. now destruct ctx.
  - rewrite IH. destruct (f p) as [[[x y] w] h]. simpl.
    now rewrite <- app_assoc.
Qed.

Lemma drawCDCBitmapLine_ops fuel ctx x0 y0 x1 y1 bw scale :
  (lineFuel x0 y0 x1 y1 <= fuel)%nat ->
  drawCDCBitmapLine fuel ctx x0 y0 x1 y1 bw scale
  = Some (mkCtx (fillStyle ctx) (strokeStyle ctx) (lineWidth ctx) (path ctx)
            (ops ctx ++ map (fun '(px, py) =>
                               FillRect (fillStyle ctx) px
                                        ((7 * scale - 1) - py) bw bw)
                            (bresenham x0 y0 x1 y1))).
Proof.
  intros Hf. unfold drawCDCBitmapLine.
  rewrite drawLine_bresenham by exact Hf. f_equal.
  etransitivity;
    [exact (fold_fillRect
              (fun p => (fst p, (7 * scale - 1) - snd p, bw, bw)) _ ctx)|].
  f_equal. f_equal. apply map_ext. now intros [px py].
Qed.

Lemma cdcLoop_strokes scale bw (ts : list Triplet) :
  forall fuel px py ctx,
    (cdcFuel scale px py ts <= fuel)%nat ->
    cdcLoop fuel scale bw px py ts ctx
    = Some (mkCtx (fillStyle ctx) (strokeStyle ctx) (lineWidth ctx) (path ctx)
              (ops ctx ++ cdcStrokes (fillStyle ctx) scale bw px py ts)).
Proof.
  induction ts as [|[[x y] i] ts IH]; intros fuel px py ctx Hf.
  - simpl. rewrite app_nil_r. now destruct ctx.
  - simpl in Hf. simpl cdcLoop. simpl cdcStrokes.
    destruct (i >? 0).
    + rewrite drawCDCBitmapLine_ops by lia. simpl.
      rewrite IH by lia. simpl. now rewrite <- app_assoc.
    + simpl. rewrite IH by lia. reflexivity.
Qed.

Lemma cdcStrokes_onePixel style scale (ts : list Triplet) :
  forall px py,
    Forall (fun op => onePixel op = true) (cdcStrokes style scale 1 px py ts).
Proof.
  induction ts as [|[[x y] i] ts IH]; intros px py; simpl; [constructor|].
  apply Forall_app. split; [|apply IH].
  destruct (i >? 0); [|constructor].
  apply Forall_fmap, Forall_true. now intros [qx qy].
Qed.

Example bresenham_diagonal :
  bresenham 0 0 2 2 = [(0, 0); (1, 1); (2, 2)].
Proof. reflexivity. Qed.

Example bresenham_shallow :
  bresenham 4 2 0 1 = [(4, 2); (3, 2); (2, 2); (1, 1); (0, 1)].
Proof. reflexivity. Qed.

(** ** Rendering *)

(** C5.  CDC-scaled rendering with the default options, at a scale of 1,
    2, 4 or 8: the function returns; it first clears the
    [(7 * scale) x (7 * scale)] square; every later drawing call is one of
    the stroke pixels [cdcStrokes] lists, that is, for each triplet with
    positive intensity, the Bresenham line between the predecessor and the
    point, both multiplied by [scale], each visited [(x, y)] painted at
    [(x, (7 * scale - 1) - y)]; and each of them is a [1 x 1] rectangle. *)
Theorem renderCDCScaledBitmap_beam (scale : Z) (ts : list Triplet)
    (ctx : Ctx) (fuel : nat)
    (Hscale : In scale [1; 2; 4; 8])
    (Hfuel : (cdcFuel scale 0 0 ts <= fuel)%nat) :
  exists ctx',
    renderCDCScaledBitmap fuel ctx ts scale defaultCDCOptions = Some ctx'
    /\ ops ctx'
       = ops ctx
         ++ FillRect "#ffffff" 0 0 (7 * scale) (7 * scale)
            :: cdcStrokes "#000000" scale 1 0 0 ts
    /\ Forall (fun op => onePixel op = true)
              (cdcStrokes "#000000" scale 1 0 0 ts).
Proof.
  unfold renderCDCScaledBitmap. simpl.
  rewrite cdcLoop_strokes by exact Hfuel.
  eexists. split; [reflexivity|]. simpl.
  split; [now rewrite <- app_assoc | apply cdcStrokes_onePixel].
Qed.

Lemma renderCDCScaledBitmap_beam_witness :
  exists ctx',
    renderCDCScaledBitmap 5 freshCtx [(1, 1, 1)] 2 defaultCDCOptions
    = Some ctx'
    /\ ops ctx'
       = ops freshCtx
         ++ FillRect "#ffffff" 0 0 (7 * 2) (7 * 2)
            :: cdcStrokes "#000000" 2 1 0 0 [(1, 1, 1)]
    /\ Forall (fun op => onePixel op = true)
              (cdcStrokes "#000000" 2 1 0 0 [(1, 1, 1)]).
Proof.
  apply (renderCDCScaledBitmap_beam 2 [(1, 1, 1)] freshCtx 5).
  - simpl. auto.
  - vm_compute. lia.
Defined.

(** The witness above, evaluated: a 14 x 14 clear and three 1 x 1 pixels
    on the flipped diagonal. *)
Example renderCDCScaledBitmap_example :
  ops <$> renderCDCScaledBitmap 5 freshCtx [(1, 1, 1)] 2 defaultCDCOptions
  = Some [FillRect "#ffffff" 0 0 14 14;
          FillRect "#000000" 0 13 1 1;
          FillRect "#000000" 1 12 1 1;
          FillRect "#000000" 2 11 1 1].
Proof. reflexivity. Qed.

Lemma trueSizeLoop_beam_off fuel (ts : list Triplet) :
  Forall (fun t : Triplet => snd t <= 0) ts ->
  forall prevX prevY ctx, trueSizeLoop fuel prevX prevY ts ctx = Some ctx.
Proof.
  induction 1 as [|[[x y] i] ts Hi _ IH]; intros prevX prevY ctx;
    [reflexivity|].
  simpl in *. destruct (Z.gtb_spec i 0); [lia|]. apply IH.
Qed.

(** C4.  The glyph [[0b01010, 0b01010]] decodes to [(2,2,false)],
    [(4,4,false)]; rendering its triplets at true size issues the 7 x 7
    clear and no stroke pixel, with any fuel and from any context.  The
    same holds for the triplets of any point sequence whose beam is off
    throughout: the loop of [renderTrueSizeBitmap] calls the line function
    only for a triplet of positive intensity, and for one of intensity 0 it
    only moves the predecessor. *)
Theorem decode_render_beam_off :
  binaryToVector [10; 10] = [(2, 2, false); (4, 4, false)]
  /\ (forall fuel ctx,
        renderTrueSizeBitmap fuel ctx
          (vectorToTriplets (binaryToVector [10; 10])) defaultTrueSizeOptions
        = Some (mkCtx "#000000" (strokeStyle ctx) (lineWidth ctx) (path ctx)
                      (ops ctx ++ [FillRect "#ffffff" 0 0 7 7])))
  /\ (forall fuel ctx (positions : list (Z * Z)),
        renderTrueSizeBitmap fuel ctx
          (vectorToTriplets (map (fun p => (fst p, snd p, false)) positions))
          defaultTrueSizeOptions
        = Some (mkCtx "#000000" (strokeStyle ctx) (lineWidth ctx) (path ctx)
                      (ops ctx ++ [FillRect "#ffffff" 0 0 7 7])))
  /\ (forall fuel prevX prevY x y rest ctx,
        trueSizeLoop fuel prevX prevY ((x, y, 0) :: rest) ctx
        = trueSizeLoop fuel x y rest ctx).
Proof.
  split; [reflexivity|]. split; [reflexivity|]. split; [|reflexivity].
  intros fuel ctx positions. unfold renderTrueSizeBitmap.
  rewrite trueSizeLoop_beam_off; [reflexivity|].
  rewrite vectorToTriplets_map, map_map.
  apply Forall_fmap, Forall_true. intros [x y]. simpl. lia.
Qed.

(** * Further properties of the code *)

Import JSString.

(** ** Decoder: flags, stationary strokes, beam parity *)

Lemma packFlags_range f : 0 <= Encoder.packFlags f < 32.
Proof. destruct f as [[] [] [] [] []]; vm_compute; split; congruence. Qed.

Lemma packFlags_decodeBinary_small m :
  0 <= m < 32 -> Encoder.packFlags (decodeBinary m) = m.
Proof.
  intros Hm.
  assert (Hall : forallb (fun k => Encoder.packFlags (decodeBinary k) =? k)
                         (zrange 32) = true) by (vm_compute; reflexivity).
  rewrite forallb_forall in Hall. apply Z.eqb_eq, Hall.
  unfold zrange. apply in_map_iff. exists (Z.to_nat m).
  split; [lia | apply in_seq; lia].
Qed.

Lemma decodeBinary_pack f : decodeBinary (Encoder.packFlags f) = f.
Proof. destruct f as [[] [] [] [] []]; reflexivity. Qed.

Lemma packFlags_decodeBinary b :
  Encoder.packFlags (decodeBinary b) = Z.land b 31.
Proof.
  rewrite <- decodeBinary_mask. apply packFlags_decodeBinary_small.
  change 31 with (Z.ones 5). rewrite Z.land_ones by lia.
  apply Z.mod_pos_bound. lia.
Qed.

(** X1.  Packing five flags into a stroke code and decoding it gives the
    flags back; decoding any number and packing the flags gives its low
    five bits. *)
Theorem decodeBinary_packFlags (f : Flags) (b : Z) :
  decodeBinary (Encoder.packFlags f) = f
  /\ Encoder.packFlags (decodeBinary b) = Z.land b 31
  /\ 0 <= Encoder.packFlags f < 32.
Proof.
  split; [apply decodeBinary_pack|].
  split; [apply packFlags_decodeBinary | apply packFlags_range].
Qed.

(** X2.  A stroke code that moves on neither axis keeps the position, and
    applied twice it restores the whole state: beam and directions toggled
    by it are toggled back. *)
Theorem stationary_twice (st : DecodeState) (b : Z)
    (Hb : stationary b = true) :
  currentX (step st b) = currentX st
  /\ currentY (step st b) = currentY st
  /\ step (step st b) b = st.
Proof.
  unfold stationary in Hb. unfold step, axisStep.
  destruct (decodeBinary b) as [v1 v2 h1 h2 u]. simpl in *.
  destruct st as [x y beam hd vd].
  destruct v1, v2, h1, h2; try discriminate; destruct u, beam; simpl;
    rewrite ?Z.opp_involutive; auto.
Qed.

Lemma stationary_twice_witness :
  currentX (step initialState 1) = 0
  /\ currentY (step initialState 1) = 0
  /\ step (step initialState 1) 1 = initialState.
Proof. apply (stationary_twice initialState 1). reflexivity. Defined.

Lemma beamOn_step st b :
  beamOn (step st b) = xorb (beamOn st) (U (decodeBinary b)).
Proof.
  unfold step.
  destruct (axisStep (V1 _) _ _ _), (axisStep (H1 _) _ _ _).
  cbn [beamOn].
  destruct (U (decodeBinary b)), (beamOn st); reflexivity.
Qed.

Lemma parity_fold strokes : forall acc,
  fold_left (fun a binary => xorb a (U (decodeBinary binary))) strokes acc
  = xorb acc (beamParity strokes).
Proof.
  unfold beamParity.
  induction strokes as [|b rest IH]; intros acc; cbn [fold_left].
  - now rewrite xorb_false_r.
  - rewrite IH, (IH (xorb false _)), xorb_false_l. now rewrite xorb_assoc.
Qed.

Lemma beamOn_stateAfter strokes : forall st,
  beamOn (stateAfter st strokes) = xorb (beamOn st) (beamParity strokes).
Proof.
  induction strokes as [|b rest IH]; intros st.
  - simpl. now rewrite xorb_false_r.
  - change (stateAfter st (b :: rest)) with (stateAfter (step st b) rest).
    rewrite IH, beamOn_step. unfold beamParity at 2. cbn [fold_left].
    rewrite parity_fold, xorb_false_l. now rewrite xorb_assoc.
Qed.

(** X3.  The beam state of the decoded point at index [i] is the parity
    of the number of stroke codes with the beam bit set among the first
    [i + 1]. *)
Theorem decoded_beam_parity (g : list Z) (i : nat) (x y : Z) (beam : bool)
    (Hi : binaryToVector g !! i = Some (x, y, beam)) :
  beam = beamParity (take (S i) g).
Proof.
  rewrite binaryToVector_decodeFrom in Hi.
  apply decodeFrom_lookup in Hi. injection Hi as _ _ ->.
  apply (beamOn_stateAfter (take (S i) g) initialState).
Qed.

Lemma decoded_beam_parity_witness :
  true = beamParity (take 2 [1; 10; 1; 17]).
Proof.
  apply (decoded_beam_parity [1; 10; 1; 17] 1 2 2 true). reflexivity.
Defined.

Lemma step_toggleFree st b :
  toggleFree b = true ->
  horizontalDirection st = 1 -> verticalDirection st = 1 ->
  horizontalDirection (step st b) = 1 /\ verticalDirection (step st b) = 1
  /\ 0 <= currentX (step st b) - currentX st <= 2
  /\ 0 <= currentY (step st b) - currentY st <= 2.
Proof.
  unfold toggleFree, step, axisStep. intros Hb Hh Hv.
  destruct (decodeBinary b) as [v1 v2 h1 h2 u]. cbn [V1 V2 H1 H2 U] in *.
  rewrite Hh, Hv.
  destruct v1, v2, h1, h2; try discriminate; simpl; lia.
Qed.

Lemma decodeFrom_forward g : forall st,
  Forall (fun b => toggleFree b = true) g ->
  horizontalDirection st = 1 -> verticalDirection st = 1 ->
  Encoder.forwardPath (currentX st) (currentY st) (decodeFrom st g).
Proof.
  induction g as [|b rest IH]; intros st Hg Hh Hv; [exact I|].
  apply Forall_cons in Hg as [Hb Hrest].
  rewrite decodeFrom_cons.
  destruct (step_toggleFree st b Hb Hh Hv) as (Hh' & Hv' & Hx & Hy).
  simpl. repeat split; try lia. now apply IH.
Qed.

(** X4.  A glyph none of whose stroke codes toggles a direction decodes to
    a path that goes forward by 0, 1 or 2 on each axis at every step: it
    never moves left or down. *)
Theorem toggleFree_decodes_forward (g : list Z)
    (Hg : Forall (fun b => toggleFree b = true) g) :
  Encoder.forwardPath 0 0 (binaryToVector g).
Proof.
  rewrite binaryToVector_decodeFrom.
  now apply (decodeFrom_forward g initialState).
Qed.

Lemma toggleFree_decodes_forward_witness :
  Encoder.forwardPath 0 0 (binaryToVector [10; 17; 4]).
Proof.
  apply toggleFree_decodes_forward. repeat constructor.
Defined.

(** X5.  Asking for a character the table does not have, a key that is
    not the name of a member of [Object.prototype] (no single character
    is), gives the points and the triplets of the space character, and the
    empty list when the table has no space either; nothing is thrown. *)
Theorem unknown_character_is_space (cdcRomBinary : gmap string (list Z))
    (c : string) (Habsent : cdcRomBinary !! c = None)
    (Hown : lookupInherited objectPrototype c = None
            \/ String.length c = 1%nat) :
  getCharacterVector cdcRomBinary c = getCharacterVector cdcRomBinary " "
  /\ getCharacterTriplets cdcRomBinary c
     = getCharacterTriplets cdcRomBinary " "
  /\ (cdcRomBinary !! " "%string = None ->
      getCharacterVector cdcRomBinary c = []
      /\ getCharacterTriplets cdcRomBinary c = []).
Proof.
  unfold getCharacterTriplets, getCharacterVector.
  rewrite (getCharacterBinary_fallback _ c Habsent Hown).
  assert (Hs : getCharacterBinary cdcRomBinary " "
               = getProperty cdcRomBinary " ").
  { unfold getCharacterBinary.
    destruct (getProperty cdcRomBinary " "); reflexivity. }
  rewrite Hs. split; [reflexivity|]. split; [reflexivity|].
  intros Hnone. unfold getProperty.
  rewrite Hnone, lookupInherited_space. split; reflexivity.
Qed.

Lemma unknown_character_is_space_witness :
  getCharacterTriplets {[ " "%string := [0; 0] ; "C"%string := [10] ]} "?"
  = [(0, 0, 0); (0, 0, 0)].
Proof.
  destruct (unknown_character_is_space
              {[ " "%string := [0; 0] ; "C"%string := [10] ]} "?"%string)
    as (_ & Ht & _); [reflexivity | right; reflexivity |].
  rewrite Ht. reflexivity.
Defined.

(** X6.  For a character the table has, the points and the triplets have
    one element per stroke code of its entry, and [generateVectorRom] holds
    the same points under that character. *)
Theorem known_character_lengths (cdcRomBinary : gmap string (list Z))
    (c : string) (g : list Z) (Hc : cdcRomBinary !! c = Some g) :
  length (getCharacterVector cdcRomBinary c) = length g
  /\ length (getCharacterTriplets cdcRomBinary c) = length g
  /\ generateVectorRom cdcRomBinary !! c
     = Some (getCharacterVector cdcRomBinary c).
Proof.
  unfold getCharacterTriplets, getCharacterVector, getCharacterBinary,
    getProperty, generateVectorRom.
  rewrite lookup_fmap, Hc. simpl.
  rewrite vectorToTriplets_map, length_map.
  rewrite binaryToVector_decodeFrom, decodeFrom_length.
  auto.
Qed.

Lemma known_character_lengths_witness :
  length (getCharacterTriplets {[ "C"%string := [10; 10; 18] ]} "C") = 3%nat.
Proof.
  destruct (known_character_lengths {[ "C"%string := [10; 10; 18] ]}
              "C"%string [10; 10; 18]) as (_ & Ht & _); [reflexivity|].
  exact Ht.
Defined.

(** ** Triplets: filtering, bounds, segments *)

(** X7.  Filtering the triplets of a point list with the default
    threshold keeps, in order, exactly the triplets of the points whose
    beam is on. *)
Theorem filterByIntensity_beam_on (pts : list VectorPoint) :
  filterByIntensity (vectorToTriplets pts) defaultThreshold
  = vectorToTriplets (List.filter (fun p : VectorPoint => snd p) pts).
Proof.
  rewrite !vectorToTriplets_map. unfold filterByIntensity.
  induction pts as [|[[x y] beam] pts IH]; [reflexivity|].
  simpl. rewrite IH. destruct beam; reflexivity.
Qed.

Lemma bounds_fold (ts : list Triplet) : forall lx hx ly hy,
  exists lx' hx' ly' hy',
    fold_left boundsBody ts
      (mkBounds (Finite lx) (Finite hx) (Finite ly) (Finite hy))
    = mkBounds (Finite lx') (Finite hx') (Finite ly') (Finite hy')
    /\ lx' <= lx /\ hx <= hx' /\ ly' <= ly /\ hy <= hy'
    /\ (forall x y i, In (x, y, i) ts ->
          lx' <= x <= hx' /\ ly' <= y <= hy')
    /\ (lx' = lx \/ exists y i, In (lx', y, i) ts)
    /\ (hx' = hx \/ exists y i, In (hx', y, i) ts)
    /\ (ly' = ly \/ exists x i, In (x, ly', i) ts)
    /\ (hy' = hy \/ exists x i, In (x, hy', i) ts).
Proof.
  induction ts as [|[[x y] i] ts IH]; intros lx hx ly hy.
  - exists lx, hx, ly, hy. simpl. repeat split; auto; try lia; contradiction.
  - cbn [fold_left].
    change (boundsBody (mkBounds (Finite lx) (Finite hx) (Finite ly)
                                 (Finite hy)) (x, y, i))
      with (mkBounds (Finite (Z.min lx x)) (Finite (Z.max hx x))
                     (Finite (Z.min ly y)) (Finite (Z.max hy y))).
    destruct (IH (Z.min lx x) (Z.max hx x) (Z.min ly y) (Z.max hy y))
      as (lx' & hx' & ly' & hy' & Heq & Hlx & Hhx & Hly & Hhy
          & Hall & Alx & Ahx & Aly & Ahy).
    exists lx', hx', ly', hy'. split; [exact Heq|].
    split; [lia|]. split; [lia|]. split; [lia|]. split; [lia|].
    split.
    { intros x0 y0 i0 [Hin|Hin]; [injection Hin as <- <- <-; lia|].
      now apply (Hall x0 y0 i0). }
    split; [|split; [|split]].
    + destruct Alx as [E|(y0 & i0 & Hin)]; [|right; exists y0, i0; now right].
      destruct (Z.min_spec lx x) as [[_ Hm]|[_ Hm]]; rewrite Hm in E;
        [now left | right; exists y, i; left; now subst].
    + destruct Ahx as [E|(y0 & i0 & Hin)]; [|right; exists y0, i0; now right].
      destruct (Z.max_spec hx x) as [[_ Hm]|[_ Hm]]; rewrite Hm in E;
        [right; exists y, i; left; now subst | now left].
    + destruct Aly as [E|(x0 & i0 & Hin)]; [|right; exists x0, i0; now right].
      destruct (Z.min_spec ly y) as [[_ Hm]|[_ Hm]]; rewrite Hm in E;
        [now left | right; exists x, i; left; now subst].
    + destruct Ahy as [E|(x0 & i0 & Hin)]; [|right; exists x0, i0; now right].
      destruct (Z.max_spec hy y) as [[_ Hm]|[_ Hm]]; rewrite Hm in E;
        [right; exists x, i; left; now subst | now left].
Qed.

(** X8.  For a non-empty triplet list, [getCharacterBounds] returns four
    finite numbers; every triplet lies between them on both axes, and each
    of the four is the coordinate of some triplet.  For the empty list it
    returns four zeros. *)
Theorem getCharacterBounds_tight (ts : list Triplet) (Hne : ts <> []) :
  (exists lx hx ly hy,
     getCharacterBounds ts
     = mkBounds (Finite lx) (Finite hx) (Finite ly) (Finite hy)
     /\ (forall x y i, In (x, y, i) ts -> lx <= x <= hx /\ ly <= y <= hy)
     /\ (exists y i, In (lx, y, i) ts) /\ (exists y i, In (hx, y, i) ts)
     /\ (exists x i, In (x, ly, i) ts) /\ (exists x i, In (x, hy, i) ts))
  /\ getCharacterBounds []
     = mkBounds (Finite 0) (Finite 0) (Finite 0) (Finite 0).
Proof.
  split; [|reflexivity].
  destruct ts as [|[[x y] i] ts]; [contradiction|].
  unfold getCharacterBounds.
  replace (Z.of_nat (length ((x, y, i) :: ts)) =? 0) with false
    by (symmetry; apply Z.eqb_neq; simpl length; lia).
  cbn [fold_left].
  change (boundsBody (mkBounds Infinity NegInfinity Infinity NegInfinity)
                     (x, y, i))
    with (mkBounds (Finite x) (Finite x) (Finite y) (Finite y)).
  destruct (bounds_fold ts x x y y)
    as (lx' & hx' & ly' & hy' & Heq & Hlx & Hhx & Hly & Hhy
        & Hall & Alx & Ahx & Aly & Ahy).
  exists lx', hx', ly', hy'. split; [exact Heq|]. split.
  { intros x0 y0 i0 [Hin|Hin]; [injection Hin as <- <- <-; lia|].
    now apply (Hall x0 y0 i0). }
  split; [|split; [|split]].
  - destruct Alx as [->|(y0 & i0 & Hin)];
      [exists y, i; now left | exists y0, i0; now right].
  - destruct Ahx as [->|(y0 & i0 & Hin)];
      [exists y, i; now left | exists y0, i0; now right].
  - destruct Aly as [->|(x0 & i0 & Hin)];
      [exists x, i; now left | exists x0, i0; now right].
  - destruct Ahy as [->|(x0 & i0 & Hin)];
      [exists x, i; now left | exists x0, i0; now right].
Qed.

Lemma getCharacterBounds_tight_witness :
  (exists lx hx ly hy,
     getCharacterBounds [(2, 2, 0); (6, 5, 1); (0, 3, 1)]
     = mkBounds (Finite lx) (Finite hx) (Finite ly) (Finite hy)
     /\ (forall x y i, In (x, y, i) [(2, 2, 0); (6, 5, 1); (0, 3, 1)] ->
          lx <= x <= hx /\ ly <= y <= hy)
     /\ (exists y i, In (lx, y, i) [(2, 2, 0); (6, 5, 1); (0, 3, 1)])
     /\ (exists y i, In (hx, y, i) [(2, 2, 0); (6, 5, 1); (0, 3, 1)])
     /\ (exists x i, In (x, ly, i) [(2, 2, 0); (6, 5, 1); (0, 3, 1)])
     /\ (exists x i, In (x, hy, i) [(2, 2, 0); (6, 5, 1); (0, 3, 1)]))
  /\ getCharacterBounds []
     = mkBounds (Finite 0) (Finite 0) (Finite 0) (Finite 0).
Proof.
  apply (getCharacterBounds_tight [(2, 2, 0); (6, 5, 1); (0, 3, 1)]).
  discriminate.
Defined.

Example getCharacterBounds_example :
  getCharacterBounds [(2, 2, 0); (6, 5, 1); (0, 3, 1)]
  = mkBounds (Finite 0) (Finite 6) (Finite 2) (Finite 5).
Proof. reflexivity. Qed.

Lemma segmentsLoop_acc (ts : list Triplet) : forall px py acc,
  segmentsLoop px py ts acc = acc ++ segmentsLoop px py ts [].
Proof.
  induction ts as [|[[x y] n] ts IH]; intros px py acc; simpl.
  - now rewrite app_nil_r.
  - rewrite (IH _ _ (acc ++ _)), (IH _ _ [_]). now rewrite <- app_assoc.
Qed.

Lemma segmentsLoop_lookup (ts : list Triplet) : forall px py i seg,
  segmentsLoop px py ts [] !! i = Some seg ->
  exists x y n,
    ts !! i = Some (x, y, n)
    /\ seg = mkSegment
               (match i with
                | O => px
                | S j => match ts !! j with
                         | Some (a, _, _) => a
                         | None => 0
                         end
                end)
               (match i with
                | O => py
                | S j => match ts !! j with
                         | Some (_, b, _) => b
                         | None => 0
                         end
                end) x y n.
Proof.
  induction ts as [|[[x y] n] ts IH]; intros px py i seg Hs;
    [discriminate|].
  simpl in Hs. rewrite segmentsLoop_acc in Hs.
  destruct i as [|i].
  - injection Hs as <-. exists x, y, n. split; reflexivity.
  - simpl in Hs. apply IH in Hs as (x' & y' & n' & Hl & ->).
    exists x', y', n'. split; [exact Hl|].
    destruct i as [|k]; reflexivity.
Qed.

Lemma segmentsLoop_length (ts : list Triplet) : forall px py,
  length (segmentsLoop px py ts []) = length ts.
Proof.
  induction ts as [|[[x y] n] ts IH]; intros px py; [reflexivity|].
  simpl. rewrite segmentsLoop_acc. simpl. now rewrite IH.
Qed.

(** X9.  [tripletsToSegments] gives one segment per triplet, none for
    the empty list; for every index of the input, the segment at that
    index ends at the triplet there, carries its intensity, and starts
    where the segment before it ended, the first one at the origin. *)
Theorem tripletsToSegments_chain (ts : list Triplet) :
  length (tripletsToSegments ts) = length ts
  /\ tripletsToSegments [] = []
  /\ forall (i : nat) (x y n : Z),
       ts !! i = Some (x, y, n) ->
       exists seg,
         tripletsToSegments ts !! i = Some seg
         /\ x2 seg = x /\ y2 seg = y /\ intensity seg = n
         /\ (x1 seg, y1 seg) = predecessor ts i
         /\ match i with
            | O => x1 seg = 0 /\ y1 seg = 0
            | S j => exists prev, tripletsToSegments ts !! j = Some prev
                                  /\ x1 seg = x2 prev /\ y1 seg = y2 prev
            end.
Proof.
  unfold tripletsToSegments.
  split; [apply segmentsLoop_length|]. split; [reflexivity|].
  intros i x y n Hi.
  assert (Hlt : (i < length (segmentsLoop 0 0 ts []))%nat).
  { rewrite segmentsLoop_length. now apply lookup_lt_Some in Hi. }
  apply lookup_lt_is_Some_2 in Hlt as [seg Hs].
  exists seg. split; [exact Hs|].
  pose proof Hs as Hs0.
  apply segmentsLoop_lookup in Hs as (x' & y' & n' & Hl & ->).
  rewrite Hi in Hl. injection Hl as <- <- <-. cbn [x1 y1 x2 y2 intensity].
  split; [reflexivity|]. split; [reflexivity|]. split; [reflexivity|].
  split.
  - unfold predecessor. destruct i as [|j]; [reflexivity|].
    destruct (ts !! j) as [[[a b] c]|]; reflexivity.
  - destruct i as [|j]; [split; reflexivity|].
    assert (Hj : (j < length (segmentsLoop 0 0 ts []))%nat).
    { apply lookup_lt_Some in Hs0. lia. }
    apply lookup_lt_is_Some_2 in Hj as [prev Hprev].
    exists prev. split; [exact Hprev|].
    apply segmentsLoop_lookup in Hprev as (a & b & c & Hlj & ->).
    rewrite Hlj. split; reflexivity.
Qed.

Lemma tripletsToSegments_chain_witness :
  exists seg,
    tripletsToSegments [(2, 2, 0); (4, 3, 1)] !! 1%nat = Some seg
    /\ x2 seg = 4 /\ y2 seg = 3 /\ intensity seg = 1
    /\ (x1 seg, y1 seg) = predecessor [(2, 2, 0); (4, 3, 1)] 1
    /\ exists prev, tripletsToSegments [(2, 2, 0); (4, 3, 1)] !! 0%nat
                    = Some prev
                    /\ x1 seg = x2 prev /\ y1 seg = y2 prev.
Proof.
  destruct (tripletsToSegments_chain [(2, 2, 0); (4, 3, 1)]) as (_ & _ & H).
  apply (H 1%nat 4 3 1). reflexivity.
Defined.

(** ** Line drawing: shape of the Bresenham walk *)

Lemma walk_shape x1 y1 dx dy sx sy :
  (sx = 1 \/ sx = -1) -> (sy = 1 \/ sy = -1) ->
  forall fuel x y err rx ry pts,
    0 <= rx <= dx -> 0 <= ry <= dy ->
    x1 - x = sx * rx -> y1 - y = sy * ry ->
    err = dx - dy + rx * dy - ry * dx ->
    walk fuel x1 y1 dx dy sx sy x y err = Some pts ->
    head pts = Some (x, y)
    /\ last pts = Some (x1, y1)
    /\ Forall (fun p => exists a b,
                 0 <= a <= rx /\ 0 <= b <= ry
                 /\ x1 - fst p = sx * a /\ y1 - snd p = sy * b) pts
    /\ chained pts.
Proof.
  intros Hsx Hsy.
  induction fuel as [|fuel IH]; intros x y err rx ry pts Hrx Hry Hx Hy Herr Hw;
    [discriminate|].
  simpl in Hw.
  destruct ((x =? x1) && (y =? y1)) eqn:Hend.
  { injection Hw as <-. apply andb_prop in Hend as [Ex Ey].
    apply Z.eqb_eq in Ex, Ey. subst x y.
    repeat split; auto.
    constructor; [|constructor]. exists rx, ry. simpl. lia. }
  assert (Hleft : 1 <= rx + ry).
  { apply andb_false_iff in Hend as [Hne|Hne]; apply Z.eqb_neq in Hne; nia. }
  assert (Hstep : forall x' y' err' rx' ry' pts',
            walk fuel x1 y1 dx dy sx sy x' y' err' = Some pts' ->
            pts = (x, y) :: pts' ->
            0 <= rx' <= rx -> 0 <= ry' <= ry ->
            x1 - x' = sx * rx' -> y1 - y' = sy * ry' ->
            err' = dx - dy + rx' * dy - ry' * dx ->
            Z.max (Z.abs (x' - x)) (Z.abs (y' - y)) = 1 ->
            head pts = Some (x, y)
            /\ last pts = Some (x1, y1)
            /\ Forall (fun p => exists a b,
                         0 <= a <= rx /\ 0 <= b <= ry
                         /\ x1 - fst p = sx * a /\ y1 - snd p = sy * b) pts
            /\ chained pts).
  { intros x' y' err' rx' ry' pts' Hw' -> Hrx' Hry' Hx' Hy' Herr' Hadj.
    destruct (IH x' y' err' rx' ry' pts') as (Hh & Hl & Hall & Hch);
      try assumption; try lia.
    destruct pts' as [|q pts'']; [discriminate|].
    injection Hh as ->.
    split; [reflexivity|]. split; [exact Hl|]. split.
    - constructor; [exists rx, ry; simpl; lia|].
      eapply Forall_impl; [exact Hall|].
      intros p (a & b & Ha & Hb & Hpa & Hpb). exists a, b. lia.
    - split; [exact Hadj | exact Hch]. }
  destruct (2 * err >? - dy) eqn:Hgx; destruct (2 * err <? dx) eqn:Hgy;
    match type of Hw with
    | context [walk fuel ?a ?b ?c ?d ?e ?g ?h ?i ?j] =>
        destruct (walk fuel a b c d e g h i j) as [pts'|] eqn:Hw';
        [|discriminate]; injection Hw as <-
    end.
  - apply Z.gtb_lt in Hgx. apply Z.ltb_lt in Hgy.
    assert (1 <= rx) by nia. assert (1 <= ry) by nia.
    apply (Hstep _ _ _ (rx - 1) (ry - 1) _ Hw'); try reflexivity; nia.
  - apply Z.gtb_lt in Hgx. apply Z.ltb_ge in Hgy.
    assert (1 <= rx) by nia.
    apply (Hstep _ _ _ (rx - 1) ry _ Hw'); try reflexivity; nia.
  - assert (2 * err <= - dy)
      by (rewrite Z.gtb_ltb in Hgx; apply Z.ltb_ge in Hgx; lia).
    apply Z.ltb_lt in Hgy.
    assert (1 <= ry) by nia.
    apply (Hstep _ _ _ rx (ry - 1) _ Hw'); try reflexivity; nia.
  - assert (2 * err <= - dy)
      by (rewrite Z.gtb_ltb in Hgx; apply Z.ltb_ge in Hgx; lia).
    apply Z.ltb_ge in Hgy. exfalso. nia.
Qed.

(** When the line is at least as wide as it is high, every iteration
    advances [x]. *)
Lemma walk_length_wide x1 y1 dx dy sx sy :
  (sx = 1 \/ sx = -1) -> (sy = 1 \/ sy = -1) -> dy <= dx ->
  forall fuel x y err rx ry pts,
    0 <= rx <= dx -> 0 <= ry <= dy ->
    x1 - x = sx * rx -> y1 - y = sy * ry ->
    err = dx - dy + rx * dy - ry * dx ->
    (0 < dx -> - dy < 2 * err) -> (dx = dy -> err = 0) ->
    walk fuel x1 y1 dx dy sx sy x y err = Some pts ->
    length pts = S (Z.to_nat rx).
Proof.
  intros Hsx Hsy Hwide.
  induction fuel as [|fuel IH];
    intros x y err rx ry pts Hrx Hry Hx Hy Herr Hlo Hdiag Hw; [discriminate|].
  simpl in Hw.
  destruct ((x =? x1) && (y =? y1)) eqn:Hend.
  { injection Hw as <-. apply andb_prop in Hend as [Ex Ey].
    apply Z.eqb_eq in Ex, Ey. subst x y.
    assert (rx = 0) by nia. subst rx. reflexivity. }
  assert (Hleft : 1 <= rx + ry).
  { apply andb_false_iff in Hend as [Hne|Hne]; apply Z.eqb_neq in Hne; nia. }
  assert (Hdx : 0 < dx) by lia. specialize (Hlo Hdx).
  destruct (2 * err >? - dy) eqn:Hgx;
    [|rewrite Z.gtb_ltb in Hgx; apply Z.ltb_ge in Hgx; lia].
  apply Z.gtb_lt in Hgx.
  assert (1 <= rx) by nia.
  destruct (2 * err <? dx) eqn:Hgy;
    match type of Hw with
    | context [walk fuel ?a ?b ?c ?d ?e ?g ?h ?i ?j] =>
        destruct (walk fuel a b c d e g h i j) as [pts'|] eqn:Hw';
        [|discriminate]; injection Hw as <-
    end.
  - apply Z.ltb_lt in Hgy. assert (1 <= ry) by nia.
    simpl length.
    rewrite (IH (x + sx) (y + sy) (err - dy + dx) (rx - 1) (ry - 1) pts'
               ltac:(lia) ltac:(lia) ltac:(nia)
               ltac:(nia) ltac:(nia) ltac:(nia) ltac:(nia) Hw').
    lia.
  - apply Z.ltb_ge in Hgy.
    assert (dy < dx) by (destruct (Z.eq_dec dx dy) as [E|]; [specialize (Hdiag E)|]; lia).
    simpl length.
    rewrite (IH (x + sx) y (err - dy) (rx - 1) ry pts'
               ltac:(lia) ltac:(lia) ltac:(nia)
               ltac:(nia) ltac:(nia) ltac:(nia) ltac:(nia) Hw').
    lia.
Qed.

(** When the line is higher than it is wide, every iteration advances
    [y]. *)
Lemma walk_length_tall x1 y1 dx dy sx sy :
  (sx = 1 \/ sx = -1) -> (sy = 1 \/ sy = -1) -> dx < dy ->
  forall fuel x y err rx ry pts,
    0 <= rx <= dx -> 0 <= ry <= dy ->
    x1 - x = sx * rx -> y1 - y = sy * ry ->
    err = dx - dy + rx * dy - ry * dx ->
    2 * err < dx ->
    walk fuel x1 y1 dx dy sx sy x y err = Some pts ->
    length pts = S (Z.to_nat ry).
Proof.
  intros Hsx Hsy Htall.
  induction fuel as [|fuel IH];
    intros x y err rx ry pts Hrx Hry Hx Hy Herr Hhi Hw; [discriminate|].
  simpl in Hw.
  destruct ((x =? x1) && (y =? y1)) eqn:Hend.
  { injection Hw as <-. apply andb_prop in Hend as [Ex Ey].
    apply Z.eqb_eq in Ex, Ey. subst x y.
    assert (ry = 0) by nia. subst ry. reflexivity. }
  assert (Hleft : 1 <= rx + ry).
  { apply andb_false_iff in Hend as [Hne|Hne]; apply Z.eqb_neq in Hne; nia. }
  destruct (2 * err <? dx) eqn:Hgy; [|apply Z.ltb_ge in Hgy; lia].
  assert (1 <= ry) by nia.
  destruct (2 * err >? - dy) eqn:Hgx;
    match type of Hw with
    | context [walk fuel ?a ?b ?c ?d ?e ?g ?h ?i ?j] =>
        destruct (walk fuel a b c d e g h i j) as [pts'|] eqn:Hw';
        [|discriminate]; injection Hw as <-
    end.
  - apply Z.gtb_lt in Hgx. assert (1 <= rx) by nia.
    simpl length.
    rewrite (IH (x + sx) (y + sy) (err - dy + dx) (rx - 1) (ry - 1) pts'
               ltac:(lia) ltac:(lia) ltac:(nia)
               ltac:(nia) ltac:(nia) ltac:(nia) Hw').
    lia.
  - assert (2 * err <= - dy)
      by (rewrite Z.gtb_ltb in Hgx; apply Z.ltb_ge in Hgx; lia).
    simpl length.
    rewrite (IH x (y + sy) (err + dx) rx (ry - 1) pts'
               ltac:(lia) ltac:(lia) ltac:(nia)
               ltac:(nia) ltac:(nia) ltac:(nia) Hw').
    lia.
Qed.

Lemma bresenham_is_walk x0 y0 x1 y1 :
  walk (lineFuel x0 y0 x1 y1) x1 y1 (Z.abs (x1 - x0)) (Z.abs (y1 - y0))
       (if x0 <? x1 then 1 else -1) (if y0 <? y1 then 1 else -1)
       x0 y0 (Z.abs (x1 - x0) - Z.abs (y1 - y0))
  = Some (bresenham x0 y0 x1 y1).
Proof.
  unfold bresenham, lineFuel.
  destruct (walk_finishes x1 y1 (Z.abs (x1 - x0)) (Z.abs (y1 - y0))
              (if x0 <? x1 then 1 else -1) (if y0 <? y1 then 1 else -1))
    with (fuel := Z.to_nat (Z.abs (x1 - x0) + Z.abs (y1 - y0) + 1))
         (x := x0) (y := y0) (err := Z.abs (x1 - x0) - Z.abs (y1 - y0))
         (rx := Z.abs (x1 - x0)) (ry := Z.abs (y1 - y0)) as [pts Hp];
    try lia.
  - destruct (x0 <? x1); auto.
  - destruct (y0 <? y1); auto.
  - destruct (Z.ltb_spec x0 x1); lia.
  - destruct (Z.ltb_spec y0 y1); lia.
  - rewrite Hp. reflexivity.
Qed.

Lemma bresenham_points x0 y0 x1 y1 :
  head (bresenham x0 y0 x1 y1) = Some (x0, y0)
  /\ last (bresenham x0 y0 x1 y1) = Some (x1, y1)
  /\ Forall (fun p => Z.min x0 x1 <= fst p <= Z.max x0 x1
                      /\ Z.min y0 y1 <= snd p <= Z.max y0 y1)
            (bresenham x0 y0 x1 y1)
  /\ chained (bresenham x0 y0 x1 y1).
Proof.
  pose proof (bresenham_is_walk x0 y0 x1 y1) as Hw.
  apply walk_shape with (rx := Z.abs (x1 - x0)) (ry := Z.abs (y1 - y0))
    in Hw as (Hh & Hl & Hall & Hch); try lia.
  - split; [exact Hh|]. split; [exact Hl|]. split; [|exact Hch].
    eapply Forall_impl; [exact Hall|].
    intros [px py] (a & b & Ha & Hb & Hpa & Hpb). simpl in *.
    destruct (Z.ltb_spec x0 x1), (Z.ltb_spec y0 y1); lia.
  - destruct (x0 <? x1); auto.
  - destruct (y0 <? y1); auto.
  - destruct (Z.ltb_spec x0 x1); lia.
  - destruct (Z.ltb_spec y0 y1); lia.
Qed.

(** X10.  The line [drawPixelLine] and [drawCDCBitmapLine] walk starts at
    the first end point and stops at the second, stays within the rectangle
    the two span, and moves from each pixel to one of its eight
    neighbours. *)
Theorem bresenham_shape (x0 y0 x1 y1 : Z) :
  head (bresenham x0 y0 x1 y1) = Some (x0, y0)
  /\ last (bresenham x0 y0 x1 y1) = Some (x1, y1)
  /\ Forall (fun p => Z.min x0 x1 <= fst p <= Z.max x0 x1
                      /\ Z.min y0 y1 <= snd p <= Z.max y0 y1)
            (bresenham x0 y0 x1 y1)
  /\ chained (bresenham x0 y0 x1 y1).
Proof. apply bresenham_points. Qed.

(** X11.  The line has exactly [max(|x1 - x0|, |y1 - y0|) + 1] pixels:
    one per step along the longer axis. *)
Theorem bresenham_length (x0 y0 x1 y1 : Z) :
  length (bresenham x0 y0 x1 y1)
  = S (Z.to_nat (Z.max (Z.abs (x1 - x0)) (Z.abs (y1 - y0)))).
Proof.
  pose proof (bresenham_is_walk x0 y0 x1 y1) as Hw.
  assert (Hsx : (if x0 <? x1 then 1 else -1) = 1
                \/ (if x0 <? x1 then 1 else -1) = -1)
    by (destruct (x0 <? x1); auto).
  assert (Hsy : (if y0 <? y1 then 1 else -1) = 1
                \/ (if y0 <? y1 then 1 else -1) = -1)
    by (destruct (y0 <? y1); auto).
  assert (Hx : x1 - x0 = (if x0 <? x1 then 1 else -1) * Z.abs (x1 - x0))
    by (destruct (Z.ltb_spec x0 x1); lia).
  assert (Hy : y1 - y0 = (if y0 <? y1 then 1 else -1) * Z.abs (y1 - y0))
    by (destruct (Z.ltb_spec y0 y1); lia).
  set (dx := Z.abs (x1 - x0)) in *. set (dy := Z.abs (y1 - y0)) in *.
  assert (Hdx : 0 <= dx <= dx) by (subst dx; lia).
  assert (Hdy : 0 <= dy <= dy) by (subst dy; lia).
  assert (Herr : dx - dy = dx - dy + dx * dy - dy * dx) by ring.
  destruct (Z_le_gt_dec dy dx) as [Hwide|Htall].
  - assert (Hlo : 0 < dx -> - dy < 2 * (dx - dy)) by lia.
    assert (Hdiag : dx = dy -> dx - dy = 0) by lia.
    rewrite (walk_length_wide _ _ _ _ _ _ Hsx Hsy Hwide _ _ _ _ _ _ _
               Hdx Hdy Hx Hy Herr Hlo Hdiag Hw).
    now rewrite Z.max_l by lia.
  - assert (Htall' : dx < dy) by lia.
    assert (Hhi : 2 * (dx - dy) < dx) by lia.
    rewrite (walk_length_tall _ _ _ _ _ _ Hsx Hsy Htall' _ _ _ _ _ _ _
               Hdx Hdy Hx Hy Herr Hhi Hw).
    now rewrite Z.max_r by lia.
Qed.

(** ** Rendering: canvas bounds, scale 1, the pixel grid *)

Lemma cdcStrokes_inside style scale (ts : list Triplet) :
  1 <= scale ->
  Forall (fun t : Triplet => 0 <= fst (fst t) <= 6 /\ 0 <= snd (fst t) <= 6) ts ->
  forall px py, 0 <= px <= 6 -> 0 <= py <= 6 ->
    Forall (fun op => insideCanvas (7 * scale) op = true)
           (cdcStrokes style scale 1 px py ts).
Proof.
  intros Hs. induction 1 as [|[[x y] i] ts [Hx Hy] _ IH]; intros px py Hpx Hpy;
    simpl; [constructor|].
  simpl in Hx, Hy.
  apply Forall_app. split; [|now apply IH].
  destruct (i >? 0); [|constructor].
  apply Forall_fmap.
  destruct (bresenham_points (px * scale) (py * scale) (x * scale) (y * scale))
    as (_ & _ & Hbox & _).
  eapply Forall_impl; [exact Hbox|].
  intros [qx qy] [Bx By]. simpl in *.
  repeat (apply andb_true_intro; split); apply Z.leb_le; nia.
Qed.

(** X12.  When every triplet has both coordinates between 0 and 6 and
    the scale is at least 1, CDC-scaled rendering with the default options
    paints only inside the [(7 * scale) x (7 * scale)] canvas: the clear
    and every stroke pixel are rectangles within it. *)
Theorem renderCDCScaledBitmap_inside (scale : Z) (ts : list Triplet)
    (ctx : Ctx) (fuel : nat)
    (Hscale : 1 <= scale)
    (Hts : Forall (fun t : Triplet =>
                     0 <= fst (fst t) <= 6 /\ 0 <= snd (fst t) <= 6) ts)
    (Hfuel : (cdcFuel scale 0 0 ts <= fuel)%nat) :
  exists ctx' drawn,
    renderCDCScaledBitmap fuel ctx ts scale defaultCDCOptions = Some ctx'
    /\ ops ctx' = ops ctx ++ drawn
    /\ Forall (fun op => insideCanvas (7 * scale) op = true) drawn.
Proof.
  unfold renderCDCScaledBitmap. simpl.
  rewrite cdcLoop_strokes by exact Hfuel.
  eexists. eexists. split; [reflexivity|]. simpl.
  split; [now rewrite <- app_assoc|].
  apply Forall_app. split.
  - constructor; [|constructor]. simpl.
    repeat (apply andb_true_intro; split); apply Z.leb_le; lia.
  - apply cdcStrokes_inside; auto; lia.
Qed.

Lemma renderCDCScaledBitmap_inside_witness :
  exists ctx' drawn,
    renderCDCScaledBitmap 30 freshCtx [(2, 2, 0); (6, 5, 1)] 4
                          defaultCDCOptions = Some ctx'
    /\ ops ctx' = ops freshCtx ++ drawn
    /\ Forall (fun op => insideCanvas (7 * 4) op = true) drawn.
Proof.
  apply (renderCDCScaledBitmap_inside 4 [(2, 2, 0); (6, 5, 1)] freshCtx 30).
  - lia.
  - repeat constructor; simpl; lia.
  - vm_compute. lia.
Defined.

Lemma cdcLoop_scale_one fuel (ts : list Triplet) : forall px py ctx,
  cdcLoop fuel 1 1 px py ts ctx = trueSizeLoop fuel px py ts ctx.
Proof.
  induction ts as [|[[x y] i] ts IH]; intros px py ctx; [reflexivity|].
  simpl. rewrite !Z.mul_1_r.
  destruct (i >? 0); simpl; [|apply IH].
  change (drawCDCBitmapLine fuel ctx px py x y 1 1)
    with (drawPixelLine fuel ctx px py x y).
  destruct (drawPixelLine fuel ctx px py x y); simpl; [apply IH | reflexivity].
Qed.

(** X13.  At scale 1, with a beam width of 1 and no pixel grid, the
    CDC-scaled renderer does exactly what the true-size renderer does with
    the same two colours, for every input and whatever the fuel. *)
Theorem renderCDCScaledBitmap_scale_one (fuel : nat) (ctx : Ctx)
    (ts : list Triplet) (pixel background grid : string) :
  renderCDCScaledBitmap fuel ctx ts 1
    (mkCDCOptions pixel background 1 false grid)
  = renderTrueSizeBitmap fuel ctx ts (mkTrueSizeOptions pixel background).
Proof.
  unfold renderCDCScaledBitmap, renderTrueSizeBitmap. simpl.
  apply cdcLoop_scale_one.
Qed.

Lemma grid_fold resolution (indices : list Z) : forall ctx,
  fillStyle (fold_left (gridBody resolution) indices ctx) = fillStyle ctx
  /\ strokeStyle (fold_left (gridBody resolution) indices ctx)
     = strokeStyle ctx
  /\ lineWidth (fold_left (gridBody resolution) indices ctx) = lineWidth ctx
  /\ ops (fold_left (gridBody resolution) indices ctx)
     = ops ctx ++ gridOps (strokeStyle ctx) (lineWidth ctx) resolution indices.
Proof.
  induction indices as [|i rest IH]; intros ctx; simpl.
  - now rewrite app_nil_r.
  - destruct (IH (gridBody resolution ctx i)) as (Hf & Hs & Hw & Ho).
    rewrite Hf, Hs, Hw, Ho. simpl. rewrite <- !app_assoc. auto.
Qed.

(** X14.  With any options, CDC-scaled rendering returns once the fuel
    covers the longest line, and what it draws is, in this order: the clear
    in the background colour; when the pixel grid is on, one vertical and
    one horizontal line of width 1/2 in the grid colour for each of
    [0 .. 7 * scale]; then the stroke pixels in the pixel colour, the same
    ones with or without the grid.  The fill style is left at the pixel
    colour. *)
Theorem renderCDCScaledBitmap_layers (o : CDCOptions) (scale : Z)
    (ts : list Triplet) (ctx : Ctx) (fuel : nat)
    (Hfuel : (cdcFuel scale 0 0 ts <= fuel)%nat) :
  exists ctx',
    renderCDCScaledBitmap fuel ctx ts scale o = Some ctx'
    /\ fillStyle ctx' = pixelColor o
    /\ ops ctx'
       = ops ctx
         ++ [FillRect (backgroundColor o) 0 0 (7 * scale) (7 * scale)]
         ++ (if showPixelGrid o
             then gridOps (gridColor o) (1 # 2)%Q (7 * scale)
                          (zrange (7 * scale + 1))
             else [])
         ++ cdcStrokes (pixelColor o) scale (beamWidth o) 0 0 ts.
Proof.
  unfold renderCDCScaledBitmap.
  rewrite cdcLoop_strokes by exact Hfuel.
  eexists. split; [reflexivity|]. split; [reflexivity|].
  cbn [ops fillStyle setFillStyle].
  destruct (showPixelGrid o).
  - match goal with
    | |- context [fold_left (gridBody ?r) ?l ?c] =>
        destruct (grid_fold r l c) as (_ & _ & _ & Ho)
    end.
    rewrite Ho. simpl. now rewrite <- !app_assoc.
  - simpl. now rewrite <- !app_assoc.
Qed.

Lemma renderCDCScaledBitmap_layers_witness :
  exists ctx',
    renderCDCScaledBitmap 5 freshCtx [(1, 1, 1)] 1
      (mkCDCOptions "#00ff00" "#000" 1 true "#f0f0f0") = Some ctx'
    /\ fillStyle ctx' = "#00ff00"%string
    /\ ops ctx'
       = ops freshCtx
         ++ [FillRect "#000" 0 0 (7 * 1) (7 * 1)]
         ++ gridOps "#f0f0f0" (1 # 2)%Q (7 * 1) (zrange (7 * 1 + 1))
         ++ cdcStrokes "#00ff00" 1 1 0 0 [(1, 1, 1)].
Proof.
  apply (renderCDCScaledBitmap_layers
           (mkCDCOptions "#00ff00" "#000" 1 true "#f0f0f0") 1 [(1, 1, 1)]
           freshCtx 5).
  vm_compute. lia.
Defined.

(** ** The encoders *)

Lemma simpleLoop_result (v : list VectorPoint) : forall i cx cy cb res,
  let r := Encoder.simpleLoop i cx cy cb v res in
  Encoder.strokeCodes r
  = Encoder.strokeCodes res ++ Encoder.simpleCodes cx cy cb v
  /\ Encoder.binarySequence r
     = Encoder.binarySequence res
       ++ map Encoder.binaryString (Encoder.simpleCodes cx cy cb v)
  /\ Encoder.character r = Encoder.character res
  /\ Encoder.totalStrokes (Encoder.summary r)
     = Encoder.totalStrokes (Encoder.summary res)
  /\ Encoder.beamOnStrokes (Encoder.summary r)
     = Encoder.beamOnStrokes (Encoder.summary res) + Encoder.beamOnCount v
  /\ Encoder.beamOffStrokes (Encoder.summary r)
     = Encoder.beamOffStrokes (Encoder.summary res)
       + (Z.of_nat (length v) - Encoder.beamOnCount v)
  /\ Encoder.directionToggles (Encoder.summary r)
     = Encoder.directionToggles (Encoder.summary res).
Proof.
  induction v as [|[[x y] b] v IH]; intros i cx cy cb res.
  - simpl. unfold Encoder.beamOnCount. simpl.
    rewrite !app_nil_r. repeat split; lia.
  - cbn zeta. cbn [Encoder.simpleLoop].
    destruct (IH (S i) x y b
                (Encoder.pushEntry res
                   (Encoder.mkEntry i (Encoder.strokeLabel i) (x, y)
                      (x - cx, y - cy) (Encoder.beamLabel b) ""
                      (Encoder.simpleFlags cx cy cb (x, y, b))
                      (Encoder.binaryString
                         (Encoder.packFlags
                            (Encoder.simpleFlags cx cy cb (x, y, b))))
                      (Encoder.packFlags
                         (Encoder.simpleFlags cx cy cb (x, y, b))) "")
                   b 0))
      as (Hc & Hs & Hch & Ht & Hon & Hoff & Htg).
    cbn zeta in *. rewrite Hc, Hs, Hch, Ht, Hon, Hoff, Htg.
    unfold Encoder.strokeCodes, Encoder.pushEntry, Encoder.beamOnCount.
    cbn [Encoder.detailedTable Encoder.binarySequence Encoder.character
         Encoder.summary Encoder.totalStrokes Encoder.beamOnStrokes
         Encoder.beamOffStrokes Encoder.directionToggles Encoder.decimal
         Encoder.binary Encoder.simpleCodes].
    rewrite map_app, <- !app_assoc. cbn [map app Encoder.decimal].
    repeat split; try reflexivity;
      destruct b; cbn [List.filter snd length]; lia.
Qed.

Lemma correctLoop_result (v : list VectorPoint) : forall i cx cy cb hd vd res,
  let r := Encoder.correctLoop i cx cy cb hd vd v res in
  Encoder.strokeCodes r
  = Encoder.strokeCodes res ++ Encoder.correctCodes cx cy cb hd vd v
  /\ Encoder.binarySequence r
     = Encoder.binarySequence res
       ++ map Encoder.binaryString (Encoder.correctCodes cx cy cb hd vd v)
  /\ Encoder.character r = Encoder.character res
  /\ Encoder.totalStrokes (Encoder.summary r)
     = Encoder.totalStrokes (Encoder.summary res)
  /\ Encoder.beamOnStrokes (Encoder.summary r)
     = Encoder.beamOnStrokes (Encoder.summary res) + Encoder.beamOnCount v
  /\ Encoder.beamOffStrokes (Encoder.summary r)
     = Encoder.beamOffStrokes (Encoder.summary res)
       + (Z.of_nat (length v) - Encoder.beamOnCount v).
Proof.
  induction v as [|[[x y] b] v IH]; intros i cx cy cb hd vd res.
  - simpl. unfold Encoder.beamOnCount. simpl.
    rewrite !app_nil_r. repeat split; lia.
  - cbn zeta. cbn [Encoder.correctLoop Encoder.correctCodes].
    destruct (Encoder.correctAxis (y - cy) vd) as [[[v1 v2] vd'] tv].
    destruct (Encoder.correctAxis (x - cx) hd) as [[[h1 h2] hd'] th].
    match goal with
    | |- context [Encoder.correctLoop ?a ?b ?c ?d ?e ?f v ?r] =>
        destruct (IH a b c d e f r) as (Hc & Hs & Hch & Ht & Hon & Hoff)
    end.
    cbn zeta in *. rewrite Hc, Hs, Hch, Ht, Hon, Hoff.
    unfold Encoder.strokeCodes, Encoder.pushEntry, Encoder.beamOnCount.
    cbn [Encoder.detailedTable Encoder.binarySequence Encoder.character
         Encoder.summary Encoder.totalStrokes Encoder.beamOnStrokes
         Encoder.beamOffStrokes Encoder.directionToggles Encoder.decimal
         Encoder.binary].
    rewrite map_app, <- !app_assoc. cbn [map app Encoder.decimal].
    repeat split; try reflexivity;
      destruct b; cbn [List.filter snd length]; lia.
Qed.

Lemma simpleCodes_length (v : list VectorPoint) : forall cx cy cb,
  length (Encoder.simpleCodes cx cy cb v) = length v.
Proof.
  induction v as [|[[x y] b] v IH]; intros cx cy cb; simpl; [|rewrite IH];
    reflexivity.
Qed.

Lemma correctCodes_length (v : list VectorPoint) : forall cx cy cb hd vd,
  length (Encoder.correctCodes cx cy cb hd vd v) = length v.
Proof.
  induction v as [|[[x y] b] v IH]; intros cx cy cb hd vd; [reflexivity|].
  cbn [Encoder.correctCodes].
  destruct (Encoder.correctAxis (y - cy) vd) as [[[v1 v2] vd'] tv].
  destruct (Encoder.correctAxis (x - cx) hd) as [[[h1 h2] hd'] th].
  simpl. now rewrite IH.
Qed.

Lemma simpleCodes_range (v : list VectorPoint) : forall cx cy cb,
  Forall (fun c => 0 <= c < 32) (Encoder.simpleCodes cx cy cb v).
Proof.
  induction v as [|[[x y] b] v IH]; intros cx cy cb; constructor;
    [apply packFlags_range | apply IH].
Qed.

Lemma correctCodes_range (v : list VectorPoint) : forall cx cy cb hd vd,
  Forall (fun c => 0 <= c < 32) (Encoder.correctCodes cx cy cb hd vd v).
Proof.
  induction v as [|[[x y] b] v IH]; intros cx cy cb hd vd; [constructor|].
  cbn [Encoder.correctCodes].
  destruct (Encoder.correctAxis (y - cy) vd) as [[[v1 v2] vd'] tv].
  destruct (Encoder.correctAxis (x - cx) hd) as [[[h1 h2] hd'] th].
  constructor; [apply packFlags_range | apply IH].
Qed.

Lemma convertSimple_codes (v : list VectorPoint) (c : string) :
  v <> [] ->
  exists r, Encoder.convertVectorToCdcTableSimple v c = inr r
            /\ Encoder.strokeCodes r = Encoder.simpleCodes 0 0 false v
            /\ Encoder.binarySequence r
               = map Encoder.binaryString (Encoder.strokeCodes r)
            /\ Encoder.character r = c
            /\ Encoder.totalStrokes (Encoder.summary r) = Z.of_nat (length v)
            /\ Encoder.beamOnStrokes (Encoder.summary r)
               = Encoder.beamOnCount v
            /\ Encoder.beamOffStrokes (Encoder.summary r)
               = Z.of_nat (length v) - Encoder.beamOnCount v
            /\ Encoder.directionToggles (Encoder.summary r) = 0.
Proof.
  intros Hv. unfold Encoder.convertVectorToCdcTableSimple.
  destruct v as [|p v']; [contradiction|].
  replace (Z.of_nat (length (p :: v')) =? 0) with false
    by (symmetry; apply Z.eqb_neq; simpl length; lia).
  eexists. split; [reflexivity|].
  match goal with
  | |- context [Encoder.simpleLoop ?i ?a ?b ?d ?l ?r] =>
      destruct (simpleLoop_result l i a b d r)
        as (Hc & Hs & Hch & Ht & Hon & Hoff & Htg)
  end.
  cbn zeta in *. rewrite Hs, Hc, Hch, Ht, Hon, Hoff, Htg.
  cbn [Encoder.strokeCodes Encoder.detailedTable Encoder.binarySequence
       Encoder.summary Encoder.character Encoder.totalStrokes
       Encoder.beamOnStrokes Encoder.beamOffStrokes
       Encoder.directionToggles map app].
  repeat split; try reflexivity; lia.
Qed.

Lemma convertCorrect_codes (v : list VectorPoint) (c : string) :
  v <> [] ->
  exists r, Encoder.convertVectorToCdcTableCorrect v c = inr r
            /\ Encoder.strokeCodes r = Encoder.correctCodes 0 0 false 1 1 v
            /\ Encoder.binarySequence r
               = map Encoder.binaryString (Encoder.strokeCodes r)
            /\ Encoder.character r = c
            /\ Encoder.totalStrokes (Encoder.summary r) = Z.of_nat (length v)
            /\ Encoder.beamOnStrokes (Encoder.summary r)
               = Encoder.beamOnCount v
            /\ Encoder.beamOffStrokes (Encoder.summary r)
               = Z.of_nat (length v) - Encoder.beamOnCount v.
Proof.
  intros Hv. unfold Encoder.convertVectorToCdcTableCorrect.
  destruct v as [|p v']; [contradiction|].
  replace (Z.of_nat (length (p :: v')) =? 0) with false
    by (symmetry; apply Z.eqb_neq; simpl length; lia).
  eexists. split; [reflexivity|].
  match goal with
  | |- context [Encoder.correctLoop ?i ?a ?b ?d ?e ?f ?l ?r] =>
      destruct (correctLoop_result l i a b d e f r)
        as (Hc & Hs & Hch & Ht & Hon & Hoff)
  end.
  cbn zeta in *. rewrite Hs, Hc, Hch, Ht, Hon, Hoff.
  cbn [Encoder.strokeCodes Encoder.detailedTable Encoder.binarySequence
       Encoder.summary Encoder.character Encoder.totalStrokes
       Encoder.beamOnStrokes Encoder.beamOffStrokes map app].
  repeat split; try reflexivity; lia.
Qed.

Lemma simpleFlags_step st x y b :
  horizontalDirection st = 1 -> verticalDirection st = 1 ->
  0 <= x - currentX st <= 2 -> 0 <= y - currentY st <= 2 ->
  step st (Encoder.packFlags
             (Encoder.simpleFlags (currentX st) (currentY st) (beamOn st)
                                  (x, y, b)))
  = mkState x y b 1 1.
Proof.
  intros Hh Hv Hx Hy. unfold step. rewrite decodeBinary_pack.
  destruct st as [cx cy cb hd vd]. simpl in Hh, Hv, Hx, Hy. subst hd vd.
  unfold Encoder.simpleFlags. cbn [V1 V2 H1 H2 U currentX currentY beamOn
                                   horizontalDirection verticalDirection].
  rewrite (Z.abs_eq (y - cy)), (Z.abs_eq (x - cx)) by lia.
  unfold axisStep.
  destruct (Z.eqb_spec (y - cy) 1), (Z.eqb_spec (y - cy) 2),
           (Z.eqb_spec (x - cx) 1), (Z.eqb_spec (x - cx) 2);
    cbn [negb andb]; try lia;
    (f_equal; [lia | lia | destruct b, cb; reflexivity]).
Qed.

Lemma simpleCodes_toggleFree (v : list VectorPoint) : forall cx cy cb,
  Forall (fun c => toggleFree c = true) (Encoder.simpleCodes cx cy cb v).
Proof.
  induction v as [|[[x y] b] v IH]; intros cx cy cb; constructor; [|apply IH].
  unfold toggleFree. rewrite decodeBinary_pack.
  unfold Encoder.simpleFlags. cbn [V1 V2 H1 H2].
  destruct (Z.abs (y - cy) =? 1), (Z.abs (x - cx) =? 1); reflexivity.
Qed.

Lemma decode_simpleCodes (v : list VectorPoint) : forall st,
  horizontalDirection st = 1 -> verticalDirection st = 1 ->
  Encoder.forwardPath (currentX st) (currentY st) v ->
  decodeFrom st
    (Encoder.simpleCodes (currentX st) (currentY st) (beamOn st) v) = v.
Proof.
  induction v as [|[[x y] b] v IH]; intros st Hh Hv Hf; [reflexivity|].
  destruct Hf as (Hx & Hy & Hrest).
  cbn [Encoder.simpleCodes]. rewrite decodeFrom_cons.
  rewrite (simpleFlags_step st x y b Hh Hv Hx Hy).
  unfold emit at 1. cbn [currentX currentY beamOn]. f_equal.
  apply (IH (mkState x y b 1 1)); auto.
Qed.

Lemma correctAxis_forward delta :
  0 <= delta <= 2 ->
  Encoder.correctAxis delta 1
  = (Z.abs delta =? 1, negb (Z.abs delta =? 1) && (Z.abs delta =? 2), 1, 0).
Proof.
  intros Hd. unfold Encoder.correctAxis.
  rewrite (Z.abs_eq delta) by lia.
  destruct (Z.gtb_spec delta 0).
  - now rewrite Z.eqb_refl.
  - replace delta with 0 by lia. reflexivity.
Qed.

Lemma correctCodes_forward (v : list VectorPoint) : forall cx cy cb,
  Encoder.forwardPath cx cy v ->
  Encoder.correctCodes cx cy cb 1 1 v = Encoder.simpleCodes cx cy cb v.
Proof.
  induction v as [|[[x y] b] v IH]; intros cx cy cb Hf; [reflexivity|].
  destruct Hf as (Hx & Hy & Hrest).
  cbn [Encoder.correctCodes Encoder.simpleCodes].
  rewrite (correctAxis_forward _ Hy), (correctAxis_forward _ Hx).
  rewrite IH by exact Hrest. reflexivity.
Qed.

(** Decoding what one axis of the direction-aware converter emits lands
    on the target only for a forward move of 0, 1 or 2. *)
Lemma correctAxis_decodes delta pos :
  fst (axisStep (fst (fst (fst (Encoder.correctAxis delta 1))))
                (snd (fst (fst (Encoder.correctAxis delta 1)))) pos 1)
  = pos + delta ->
  0 <= delta <= 2.
Proof.
  unfold Encoder.correctAxis, axisStep.
  destruct (Z.gtb_spec (Z.abs delta) 0); simpl; [|lia].
  destruct (Z.gtb_spec delta 0); simpl.
  - destruct (Z.eqb_spec (Z.abs delta) 1); simpl; [lia|].
    destruct (Z.eqb_spec (Z.abs delta) 2); simpl; lia.
  - lia.
Qed.

Lemma decode_correctCodes_inv (v : list VectorPoint) : forall st,
  horizontalDirection st = 1 -> verticalDirection st = 1 ->
  decodeFrom st
    (Encoder.correctCodes (currentX st) (currentY st) (beamOn st) 1 1 v) = v ->
  Encoder.forwardPath (currentX st) (currentY st) v.
Proof.
  induction v as [|[[x y] b] v IH]; intros st Hh Hv Hd; [exact I|].
  cbn [Encoder.correctCodes] in Hd.
  pose proof (correctAxis_decodes (y - currentY st) (currentY st)) as Ay.
  pose proof (correctAxis_decodes (x - currentX st) (currentX st)) as Ax.
  destruct (Encoder.correctAxis (y - currentY st) 1)
    as [[[v1 v2] vd'] tv] eqn:Ey.
  destruct (Encoder.correctAxis (x - currentX st) 1)
    as [[[h1 h2] hd'] th] eqn:Ex.
  rewrite decodeFrom_cons in Hd. injection Hd as Hx' Hy' Hb' Hrest.
  unfold step in Hx', Hy', Hb', Hrest.
  rewrite decodeBinary_pack in Hx', Hy', Hb', Hrest.
  cbn [V1 V2 H1 H2 U fst snd] in *. rewrite Hh, Hv in Hx', Hy', Hb', Hrest.
  destruct (axisStep v1 v2 (currentY st) 1) as [y' vd''] eqn:Sy.
  destruct (axisStep h1 h2 (currentX st) 1) as [x' hd''] eqn:Sx.
  cbn [currentX currentY beamOn fst snd] in *.
  assert (Hfy : 0 <= y - currentY st <= 2) by (apply Ay; lia).
  assert (Hfx : 0 <= x - currentX st <= 2) by (apply Ax; lia).
  split; [exact Hfx|]. split; [exact Hfy|].
  rewrite (correctAxis_forward _ Hfy) in Ey.
  rewrite (correctAxis_forward _ Hfx) in Ex.
  injection Ey as <- <- <- _. injection Ex as <- <- <- _.
  assert (vd'' = 1).
  { unfold axisStep in Sy.
    destruct (Z.abs (y - currentY st) =? 1),
             (Z.abs (y - currentY st) =? 2); simpl in Sy; congruence. }
  assert (hd'' = 1).
  { unfold axisStep in Sx.
    destruct (Z.abs (x - currentX st) =? 1),
             (Z.abs (x - currentX st) =? 2); simpl in Sx; congruence. }
  subst x' y' vd'' hd''.
  rewrite Hb' in Hrest.
  apply (IH (mkState x y b 1 1) eq_refl eq_refl). exact Hrest.
Qed.

Lemma beams_simpleCodes (v : list VectorPoint) : forall st cx cy,
  map snd (decodeFrom st (Encoder.simpleCodes cx cy (beamOn st) v))
  = map snd v.
Proof.
  induction v as [|[[x y] b] v IH]; intros st cx cy; [reflexivity|].
  cbn [Encoder.simpleCodes]. rewrite decodeFrom_cons.
  assert (Hb : beamOn (step st (Encoder.packFlags
                 (Encoder.simpleFlags cx cy (beamOn st) (x, y, b)))) = b).
  { rewrite beamOn_step, decodeBinary_pack. simpl.
    destruct b, (beamOn st); reflexivity. }
  cbn [map]. f_equal; [exact Hb|].
  remember (step st _) as s' eqn:Hs'. clear Hs'. subst b. apply IH.
Qed.

Lemma beams_correctCodes (v : list VectorPoint) : forall st cx cy hd vd,
  map snd (decodeFrom st (Encoder.correctCodes cx cy (beamOn st) hd vd v))
  = map snd v.
Proof.
  induction v as [|[[x y] b] v IH]; intros st cx cy hd vd; [reflexivity|].
  cbn [Encoder.correctCodes].
  destruct (Encoder.correctAxis (y - cy) vd) as [[[v1 v2] vd'] tv].
  destruct (Encoder.correctAxis (x - cx) hd) as [[[h1 h2] hd'] th].
  rewrite decodeFrom_cons.
  match goal with
  | |- context [step st ?code] =>
      assert (Hb : beamOn (step st code) = b)
  end.
  { rewrite beamOn_step, decodeBinary_pack. simpl.
    destruct b, (beamOn st); reflexivity. }
  cbn [map]. f_equal; [exact Hb|].
  remember (step st _) as s' eqn:Hs'. clear Hs'. subst b. apply IH.
Qed.

Lemma simpleFlags_of_step st b :
  toggleFree b = true ->
  horizontalDirection st = 1 -> verticalDirection st = 1 ->
  Encoder.simpleFlags (currentX st) (currentY st) (beamOn st)
                      (emit (step st b))
  = decodeBinary b.
Proof.
  unfold toggleFree, step, Encoder.simpleFlags, emit, axisStep.
  intros Hb Hh Hv. rewrite Hh, Hv.
  destruct (decodeBinary b) as [v1 v2 h1 h2 u]. cbn [V1 V2 H1 H2 U] in *.
  destruct st as [cx cy cb hd vd].
  cbn [currentX currentY beamOn horizontalDirection verticalDirection].
  destruct v1, v2, h1, h2; try discriminate;
    cbn [andb currentX currentY beamOn];
    rewrite ?Z.add_simpl_l, ?Z.sub_diag; cbn;
    destruct u, cb; reflexivity.
Qed.

Lemma simpleCodes_of_decoded g : forall st,
  Forall (fun b => toggleFree b = true) g ->
  horizontalDirection st = 1 -> verticalDirection st = 1 ->
  Encoder.simpleCodes (currentX st) (currentY st) (beamOn st)
                      (decodeFrom st g)
  = map (fun b => Z.land b 31) g.
Proof.
  induction g as [|b g IH]; intros st Hg Hh Hv; [reflexivity|].
  apply Forall_cons in Hg as [Hb Hrest].
  rewrite decodeFrom_cons.
  pose proof (simpleFlags_of_step st b Hb Hh Hv) as Hf.
  destruct (step_toggleFree st b Hb Hh Hv) as (Hh' & Hv' & _).
  unfold emit in *.
  cbn [Encoder.simpleCodes map]. rewrite Hf, packFlags_decodeBinary.
  f_equal. apply (IH (step st b)); auto.
Qed.

(** X15.  Both converters throw on an empty point list.  On a non-empty
    one they return a result with one stroke code per point, every code
    below 32, the binary strings being those codes formatted, and a
    summary that counts the points, those with the beam on and those with
    it off. *)
Theorem converters_result (v : list VectorPoint) (c : string)
    (Hv : v <> []) :
  Encoder.convertVectorToCdcTableSimple [] c
  = inl "Invalid vector data provided"%string
  /\ Encoder.convertVectorToCdcTableCorrect [] c
     = inl "Invalid vector data provided"%string
  /\ exists rs rc,
       Encoder.convertVectorToCdcTableSimple v c = inr rs
       /\ Encoder.convertVectorToCdcTableCorrect v c = inr rc
       /\ let wellFormed r :=
            length (Encoder.strokeCodes r) = length v
            /\ Forall (fun code => 0 <= code < 32) (Encoder.strokeCodes r)
            /\ Encoder.binarySequence r
               = map Encoder.binaryString (Encoder.strokeCodes r)
            /\ Encoder.character r = c
            /\ Encoder.totalStrokes (Encoder.summary r)
               = Z.of_nat (length v)
            /\ Encoder.beamOnStrokes (Encoder.summary r)
               = Encoder.beamOnCount v
            /\ Encoder.beamOnStrokes (Encoder.summary r)
               + Encoder.beamOffStrokes (Encoder.summary r)
               = Encoder.totalStrokes (Encoder.summary r) in
          wellFormed rs /\ wellFormed rc.
Proof.
  split; [reflexivity|]. split; [reflexivity|].
  destruct (convertSimple_codes v c Hv)
    as (rs & Hrs & Hcs & Hss & Hchs & Hts & Hons & Hoffs & _).
  destruct (convertCorrect_codes v c Hv)
    as (rc & Hrc & Hcc & Hsc & Hchc & Htc & Honc & Hoffc).
  exists rs, rc. split; [exact Hrs|]. split; [exact Hrc|].
  cbn zeta. split.
  - rewrite Hcs. split; [apply simpleCodes_length|].
    split; [apply simpleCodes_range|]. rewrite <- Hcs.
    repeat split; auto; lia.
  - rewrite Hcc. split; [apply correctCodes_length|].
    split; [apply correctCodes_range|]. rewrite <- Hcc.
    repeat split; auto; lia.
Qed.

Lemma converters_result_witness :
  exists rs,
    Encoder.convertVectorToCdcTableSimple [(2, 2, false); (1, 3, true)] "C"
    = inr rs
    /\ Encoder.strokeCodes rs = [10; 21].
Proof.
  destruct (converters_result [(2, 2, false); (1, 3, true)] "C"%string)
    as (_ & _ & rs & rc & Hrs & _); [discriminate|].
  exists rs. split; [exact Hrs|].
  vm_compute in Hrs. injection Hrs as <-. reflexivity.
Defined.

(** X16.  The simple converter followed by the decoder gives back the
    point list exactly when the path goes forward by 0, 1 or 2 on each axis
    at every step from the origin; any move left or down, or by more than
    2, is lost. *)
Theorem simple_round_trip (v : list VectorPoint) (c : string)
    (Hv : v <> []) :
  exists r,
    Encoder.convertVectorToCdcTableSimple v c = inr r
    /\ (binaryToVector (Encoder.strokeCodes r) = v
        <-> Encoder.forwardPath 0 0 v).
Proof.
  destruct (convertSimple_codes v c Hv) as (r & Hr & Hc & _).
  exists r. split; [exact Hr|].
  rewrite Hc, binaryToVector_decodeFrom. split.
  - intros Hd. rewrite <- Hd.
    apply (decodeFrom_forward _ initialState); auto.
    apply simpleCodes_toggleFree.
  - intros Hf. now apply (decode_simpleCodes v initialState).
Qed.

Lemma simple_round_trip_witness :
  exists r,
    Encoder.convertVectorToCdcTableSimple
      [(2, 2, false); (4, 4, false); (6, 5, true)] "C" = inr r
    /\ binaryToVector (Encoder.strokeCodes r)
       = [(2, 2, false); (4, 4, false); (6, 5, true)].
Proof.
  destruct (simple_round_trip [(2, 2, false); (4, 4, false); (6, 5, true)]
              "C"%string) as (r & Hr & Hiff); [discriminate|].
  exists r. split; [exact Hr|]. apply Hiff. simpl. lia.
Defined.

(** X17.  The direction-aware converter followed by the decoder also
    gives back the point list exactly for the forward paths, and on those
    it emits the same stroke codes as the simple converter: a stroke on
    which it toggles a direction carries no movement, so the move that
    asked for the toggle is lost. *)
Theorem correct_round_trip (v : list VectorPoint) (c : string)
    (Hv : v <> []) :
  exists rc rs,
    Encoder.convertVectorToCdcTableCorrect v c = inr rc
    /\ Encoder.convertVectorToCdcTableSimple v c = inr rs
    /\ (binaryToVector (Encoder.strokeCodes rc) = v
        <-> Encoder.forwardPath 0 0 v)
    /\ (Encoder.forwardPath 0 0 v ->
        Encoder.strokeCodes rc = Encoder.strokeCodes rs).
Proof.
  destruct (convertCorrect_codes v c Hv) as (rc & Hrc & Hcc & _).
  destruct (convertSimple_codes v c Hv) as (rs & Hrs & Hcs & _).
  exists rc, rs. split; [exact Hrc|]. split; [exact Hrs|].
  rewrite Hcc, Hcs, binaryToVector_decodeFrom. split; [split|].
  - intros Hd. now apply (decode_correctCodes_inv v initialState).
  - intros Hf. rewrite correctCodes_forward by exact Hf.
    now apply (decode_simpleCodes v initialState).
  - intros Hf. now apply correctCodes_forward.
Qed.

Lemma correct_round_trip_witness :
  exists rc,
    Encoder.convertVectorToCdcTableCorrect
      [(2, 2, false); (1, 2, true)] "C" = inr rc
    /\ binaryToVector (Encoder.strokeCodes rc)
       <> [(2, 2, false); (1, 2, true)].
Proof.
  destruct (correct_round_trip [(2, 2, false); (1, 2, true)] "C"%string)
    as (rc & rs & Hrc & _ & Hiff & _); [discriminate|].
  exists rc. split; [exact Hrc|].
  intros Heq. apply Hiff in Heq. simpl in Heq. lia.
Defined.

(** X18.  Decoding a non-empty glyph that toggles no direction and
    handing the points to the simple converter gives the glyph back, each
    stroke code reduced to its low five bits. *)
Theorem simple_of_decoded (g : list Z) (c : string)
    (Hne : g <> [])
    (Hg : Forall (fun b => toggleFree b = true) g) :
  exists r,
    Encoder.convertVectorToCdcTableSimple (binaryToVector g) c = inr r
    /\ Encoder.strokeCodes r = map (fun b => Z.land b 31) g.
Proof.
  assert (Hv : binaryToVector g <> []).
  { intros He. apply (f_equal length) in He.
    rewrite binaryToVector_decodeFrom, decodeFrom_length in He.
    destruct g; [contradiction | discriminate]. }
  destruct (convertSimple_codes _ c Hv) as (r & Hr & Hc & _).
  exists r. split; [exact Hr|].
  rewrite Hc, binaryToVector_decodeFrom.
  now apply (simpleCodes_of_decoded g initialState).
Qed.

Lemma simple_of_decoded_witness :
  exists r,
    Encoder.convertVectorToCdcTableSimple (binaryToVector [10; 49; 4]) "C"
    = inr r
    /\ Encoder.strokeCodes r = map (fun b => Z.land b 31) [10; 49; 4].
Proof.
  apply (simple_of_decoded [10; 49; 4] "C"%string).
  - discriminate.
  - repeat constructor.
Defined.

(** X19.  Whatever the path, decoding the stroke codes of either
    converter reproduces the beam state of every point. *)
Theorem converters_keep_beam (v : list VectorPoint) (c : string)
    (Hv : v <> []) :
  exists rs rc,
    Encoder.convertVectorToCdcTableSimple v c = inr rs
    /\ Encoder.convertVectorToCdcTableCorrect v c = inr rc
    /\ map snd (binaryToVector (Encoder.strokeCodes rs)) = map snd v
    /\ map snd (binaryToVector (Encoder.strokeCodes rc)) = map snd v.
Proof.
  destruct (convertCorrect_codes v c Hv) as (rc & Hrc & Hcc & _).
  destruct (convertSimple_codes v c Hv) as (rs & Hrs & Hcs & _).
  exists rs, rc. split; [exact Hrs|]. split; [exact Hrc|].
  rewrite Hcc, Hcs, !binaryToVector_decodeFrom. split.
  - apply (beams_simpleCodes v initialState).
  - apply (beams_correctCodes v initialState).
Qed.

Lemma converters_keep_beam_witness :
  exists rs rc,
    Encoder.convertVectorToCdcTableSimple [(2, 2, true); (0, 5, false)] "C"
    = inr rs
    /\ Encoder.convertVectorToCdcTableCorrect
         [(2, 2, true); (0, 5, false)] "C" = inr rc
    /\ map snd (binaryToVector (Encoder.strokeCodes rs))
       = map snd [(2, 2, true); (0, 5, false)]
    /\ map snd (binaryToVector (Encoder.strokeCodes rc))
       = map snd [(2, 2, true); (0, 5, false)].
Proof.
  apply (converters_keep_beam [(2, 2, true); (0, 5, false)] "C"%string).
  discriminate.
Defined.

(** ** Writing and re-reading the binary strings *)

Lemma parse_binaryString code :
  0 <= code < 32 ->
  parseInt (replaceFirst "0b" "" (Encoder.binaryString code)) 2 = Some code
  /\ String.length (Encoder.binaryString code) = 7%nat
  /\ String.prefix "0b" (Encoder.binaryString code) = true.
Proof.
  intros Hc.
  assert (Hall : forallb
            (fun k =>
               match parseInt (replaceFirst "0b" ""
                                 (Encoder.binaryString k)) 2 with
               | Some z => (z =? k)
                           && Nat.eqb (String.length
                                         (Encoder.binaryString k)) 7
                           && String.prefix "0b" (Encoder.binaryString k)
               | None => false
               end) (zrange 32) = true) by (vm_compute; reflexivity).
  rewrite forallb_forall in Hall.
  assert (Hin : In code (zrange 32)).
  { unfold zrange. apply in_map_iff. exists (Z.to_nat code).
    split; [lia | apply in_seq; lia]. }
  specialize (Hall code Hin).
  destruct (parseInt _ 2) as [z|]; [|discriminate].
  apply andb_prop in Hall as [Hall Hp]. apply andb_prop in Hall as [Hz Hl].
  apply Z.eqb_eq in Hz. apply Nat.eqb_eq in Hl. now subst z.
Qed.

Lemma romEntries_values (codes : list Z) : forall i,
  Forall (fun code => 0 <= code < 32) codes ->
  map RomWriter.value
      (RomWriter.romEntries i (map Encoder.binaryString codes))
  = map Some codes.
Proof.
  induction codes as [|code codes IH]; intros i Hc; [reflexivity|].
  apply Forall_cons in Hc as [Hcode Hrest].
  cbn [map RomWriter.romEntries RomWriter.value].
  destruct (parse_binaryString code Hcode) as [Hp _].
  rewrite Hp, IH by exact Hrest. reflexivity.
Qed.

(** X20.  For a non-empty point list, the values [convertAllCharacters]
    stores for a character are exactly the stroke codes of the simple
    converter: each code is written as ["0b"] followed by five binary
    digits, and stripping the prefix and parsing in base 2 gives the code
    back, never [NaN]. *)
Theorem rom_values_are_codes (v : list VectorPoint) (c : string)
    (Hv : v <> []) :
  exists r entries,
    Encoder.convertVectorToCdcTableSimple v c = inr r
    /\ RomWriter.convertCharacter v c = inr entries
    /\ map RomWriter.value entries = map Some (Encoder.strokeCodes r)
    /\ Forall (fun s => String.length s = 7%nat /\ String.prefix "0b" s = true)
              (Encoder.binarySequence r).
Proof.
  destruct (convertSimple_codes v c Hv) as (r & Hr & Hc & Hs & _).
  exists r. eexists. split; [exact Hr|].
  unfold RomWriter.convertCharacter. rewrite Hr.
  split; [reflexivity|].
  assert (Hrange : Forall (fun code => 0 <= code < 32) (Encoder.strokeCodes r))
    by (rewrite Hc; apply simpleCodes_range).
  rewrite Hs. split; [now apply romEntries_values|].
  apply Forall_fmap. eapply Forall_impl; [exact Hrange|].
  intros code Hcode. simpl.
  destruct (parse_binaryString code Hcode) as (_ & Hl & Hp). auto.
Qed.

Lemma rom_values_are_codes_witness :
  exists entries,
    RomWriter.convertCharacter [(2, 2, false); (1, 3, true)] "C"
    = inr entries
    /\ map RomWriter.value entries = [Some 10; Some 21].
Proof.
  destruct (rom_values_are_codes [(2, 2, false); (1, 3, true)] "C"%string)
    as (r & entries & Hr & He & Hvals & _); [discriminate|].
  exists entries. split; [exact He|].
  rewrite Hvals. vm_compute in Hr. injection Hr as <-. reflexivity.
Defined.

(** ** The round-trip test's decoder and comparisons *)

Lemma step'_step st b : RoundTrip.step' st b = step st b.
Proof.
  unfold RoundTrip.step', step, RoundTrip.axisStep', axisStep.
  destruct (decodeBinary b) as [[] [] [] [] u]; reflexivity.
Qed.

Lemma decodeLoop22_take g : forall i st acc,
  RoundTrip.decodeLoop22 i st g acc
  = acc ++ decodeFrom st (take (22 - i) g).
Proof.
  induction g as [|b g IH]; intros i st acc.
  - simpl. rewrite take_nil. simpl. now rewrite app_nil_r.
  - cbn [RoundTrip.decodeLoop22].
    destruct (Nat.ltb_spec i 22) as [Hlt|Hge].
    + rewrite IH, step'_step.
      replace (22 - i)%nat with (S (22 - S i)) by lia.
      cbn [take]. rewrite decodeFrom_cons. now rewrite <- app_assoc.
    + replace (22 - i)%nat with 0%nat by lia. simpl. now rewrite app_nil_r.
Qed.

(** X21.  The decoder the round-trip test carries agrees with
    [binaryToVector] on the first 22 stroke codes and ignores the rest. *)
Theorem decodeCdcBinaryToVector_take (g : list Z) :
  RoundTrip.decodeCdcBinaryToVector g = binaryToVector (take 22 g)
  /\ ((length g <= 22)%nat ->
      RoundTrip.decodeCdcBinaryToVector g = binaryToVector g).
Proof.
  assert (H : RoundTrip.decodeCdcBinaryToVector g = binaryToVector (take 22 g)).
  { rewrite binaryToVector_decodeFrom.
    unfold RoundTrip.decodeCdcBinaryToVector.
    destruct (Z.eqb_spec (Z.of_nat (length g)) 0) as [E|E].
    - destruct g; [reflexivity | discriminate].
    - now rewrite decodeLoop22_take. }
  split; [exact H|].
  intros Hl. rewrite H. now rewrite take_ge by lia.
Qed.

Lemma pointsDiffer_false (p q : VectorPoint) :
  RoundTrip.pointsDiffer p q = false <-> p = q.
Proof.
  destruct p as [[a b] c], q as [[a' b'] c']. unfold RoundTrip.pointsDiffer.
  rewrite !orb_false_iff, !negb_false_iff, !Z.eqb_eq, eqb_true_iff.
  split; [intros [[-> ->] ->]; reflexivity | intros [= -> -> ->]; auto].
Qed.

Lemma vectorsEqualLoop_eq (v1 : list VectorPoint) : forall v2,
  length v1 = length v2 ->
  (RoundTrip.vectorsEqualLoop v1 v2 = true <-> v1 = v2).
Proof.
  induction v1 as [|p v1 IH]; intros [|q v2] Hl; try discriminate.
  - split; reflexivity.
  - simpl. destruct (RoundTrip.pointsDiffer p q) eqn:Hd.
    + split; [discriminate|]. intros [= -> ->].
      assert (RoundTrip.pointsDiffer q q = false) by now apply pointsDiffer_false.
      congruence.
    + apply pointsDiffer_false in Hd as ->.
      rewrite IH by (simpl in Hl; lia).
      split; [now intros -> | now intros [= ->]].
Qed.

(** X22.  [vectorsEqual] answers [true] exactly when the two point lists
    are the same list. *)
Theorem vectorsEqual_iff (v1 v2 : list VectorPoint) :
  RoundTrip.vectorsEqual v1 v2 = true <-> v1 = v2.
Proof.
  unfold RoundTrip.vectorsEqual.
  destruct (Nat.eqb_spec (length v1) (length v2)) as [Hl|Hl]; simpl.
  - now apply vectorsEqualLoop_eq.
  - split; [discriminate | intros ->; contradiction].
Qed.

Lemma compareLoop_counts (o : list VectorPoint) : forall d i m mm,
  let r := RoundTrip.compareLoop i o d m mm in
  (length (fst r) + length (snd r)
   = length m + length mm + Nat.min (length o) (length d))%nat
  /\ (length m <= length (fst r))%nat
  /\ (length mm <= length (snd r))%nat.
Proof.
  induction o as [|[[x1 y1] b1] o IH]; intros d i m mm.
  - simpl. lia.
  - destruct d as [|[[x2 y2] b2] d]; [simpl; lia|].
    cbn zeta. cbn [RoundTrip.compareLoop].
    destruct ((x1 =? x2) && (y1 =? y2) && eqb b1 b2).
    + destruct (IH d (S i) (m ++ [i]) mm) as (H1 & H2 & H3). cbn zeta in *.
      rewrite length_app in *. simpl length in *. lia.
    + match goal with
      | |- context [RoundTrip.compareLoop _ o d m ?mm'] =>
          destruct (IH d (S i) m mm') as (H1 & H2 & H3)
      end.
      cbn zeta in *. rewrite length_app in *. simpl length in *. lia.
Qed.

Lemma compareLoop_all_match (o : list VectorPoint) : forall d i m mm,
  length o = length d ->
  (length (fst (RoundTrip.compareLoop i o d m mm))
   = (length m + length o)%nat
   <-> o = d).
Proof.
  induction o as [|[[x1 y1] b1] o IH]; intros [|[[x2 y2] b2] d] i m mm Hl;
    try discriminate.
  - simpl. split; [reflexivity | lia].
  - cbn [RoundTrip.compareLoop].
    destruct ((x1 =? x2) && (y1 =? y2) && eqb b1 b2) eqn:He.
    + apply andb_prop in He as [He Hb]. apply andb_prop in He as [Hx Hy].
      apply Z.eqb_eq in Hx, Hy. apply eqb_prop in Hb. subst x2 y2 b2.
      pose proof (IH d (S i) (m ++ [i]) mm ltac:(simpl in Hl; lia)) as Hiff.
      rewrite length_app in Hiff. simpl length in *.
      split.
      * intros Hlen. f_equal. apply Hiff. lia.
      * intros [= <-]. assert (o = o) as Hoo by reflexivity.
        apply Hiff in Hoo. lia.
    + match goal with
      | |- context [RoundTrip.compareLoop _ o d m ?mm'] =>
          destruct (compareLoop_counts o d (S i) m mm') as (H1 & H2 & H3)
      end.
      cbn zeta in *. simpl length in *. split.
      * intros Hlen. exfalso. lia.
      * intros [= -> -> ->].
        rewrite !Z.eqb_refl, eqb_reflx in He. discriminate.
Qed.

(** X23.  [compareVectors] reports an exact match exactly when the two
    point lists are the same list; the matches and the mismatches it
    counts add up to the length of the shorter list, and [lengthDiff] is
    the decoded length minus the original one. *)
Theorem compareVectors_exact (o d : list VectorPoint) :
  (RoundTrip.isExactMatch (RoundTrip.compareVectors o d) = true <-> o = d)
  /\ RoundTrip.matches (RoundTrip.compareVectors o d)
     + Z.of_nat (length (RoundTrip.mismatches (RoundTrip.compareVectors o d)))
     = Z.of_nat (Nat.min (length o) (length d))
  /\ RoundTrip.lengthDiff (RoundTrip.compareVectors o d)
     = Z.of_nat (length d) - Z.of_nat (length o).
Proof.
  unfold RoundTrip.compareVectors.
  pose proof (compareLoop_counts o d 0 [] []) as (Hc & _ & _).
  pose proof (compareLoop_all_match o d 0 [] []) as Hm.
  destruct (RoundTrip.compareLoop 0 o d [] []) as [m mm].
  cbn [RoundTrip.isExactMatch RoundTrip.matches RoundTrip.mismatches
       RoundTrip.lengthDiff fst snd] in *.
  simpl length in *.
  split; [|split; [lia | reflexivity]].
  rewrite andb_true_iff, !Z.eqb_eq. split.
  - intros [H1 H2]. apply Hm; lia.
  - intros ->. split; [|reflexivity].
    assert (length m = length d) by (apply Hm; reflexivity). lia.
Qed.

(** ** The two-pass encoder *)

Lemma deltasLoop_toggles (v : list VectorPoint) : forall px py pb acc,
  map DirectionEncoder.beamToggle (DirectionEncoder.deltasLoop px py pb v acc)
  = map DirectionEncoder.beamToggle acc
    ++ DirectionEncoder.beamToggles pb v.
Proof.
  induction v as [|[[x y] b] v IH]; intros px py pb acc; simpl.
  - now rewrite app_nil_r.
  - rewrite IH, map_app, <- app_assoc. reflexivity.
Qed.

Lemma moveFlags_bits a :
  (fst (DirectionEncoder.moveFlags a) = 0
   \/ fst (DirectionEncoder.moveFlags a) = 1)
  /\ (snd (DirectionEncoder.moveFlags a) = 0
      \/ snd (DirectionEncoder.moveFlags a) = 1).
Proof.
  unfold DirectionEncoder.moveFlags.
  destruct (a =? 1), (a =? 2), (a =? 3); simpl; auto.
Qed.

Lemma lookAhead_bits axis next b1 b2 dir tn :
  (b1 = 0 \/ b1 = 1) -> (b2 = 0 \/ b2 = 1) ->
  let r := DirectionEncoder.lookAhead axis next b1 b2 dir tn in
  (fst (fst (fst r)) = 0 \/ fst (fst (fst r)) = 1)
  /\ (snd (fst (fst r)) = 0 \/ snd (fst (fst r)) = 1).
Proof.
  intros H1 H2. unfold DirectionEncoder.lookAhead.
  destruct (negb (next =? 0)); [|simpl; auto].
  destruct (negb ((if next >? 0 then 1 else -1) =? dir)); simpl; auto.
  destruct H1 as [-> | ->], H2 as [-> | ->]; simpl; auto.
Qed.

Lemma strokesLoop_result (ds : list DirectionEncoder.Delta) :
  forall i hd vd acc,
    Forall DirectionEncoder.flagsAreBits acc ->
    let r := DirectionEncoder.strokesLoop i hd vd ds acc in
    Forall DirectionEncoder.flagsAreBits r
    /\ map DirectionEncoder.U r
       = map DirectionEncoder.U acc
         ++ map (fun d => if DirectionEncoder.beamToggle d then 1 else 0) ds.
Proof.
  induction ds as [|d ds IH]; intros i hd vd acc Hacc.
  - simpl. now rewrite app_nil_r.
  - cbn zeta. cbn [DirectionEncoder.strokesLoop].
    pose proof (moveFlags_bits (Z.abs (DirectionEncoder.dy d))) as [Bv1 Bv2].
    pose proof (moveFlags_bits (Z.abs (DirectionEncoder.dx d))) as [Bh1 Bh2].
    destruct (DirectionEncoder.moveFlags (Z.abs (DirectionEncoder.dy d)))
      as [v1 v2].
    destruct (DirectionEncoder.moveFlags (Z.abs (DirectionEncoder.dx d)))
      as [h1 h2].
    cbn [fst snd] in *.
    assert (Hstep : forall h1' h2' hd' v1' v2' vd',
              (h1' = 0 \/ h1' = 1) -> (h2' = 0 \/ h2' = 1) ->
              (v1' = 0 \/ v1' = 1) -> (v2' = 0 \/ v2' = 1) ->
              forall nt,
              let r := DirectionEncoder.strokesLoop (S i) hd' vd' ds
                         (acc ++ [DirectionEncoder.mkStroke v1' v2' h1' h2'
                                    (if DirectionEncoder.beamToggle d
                                     then 1 else 0) nt]) in
              Forall DirectionEncoder.flagsAreBits r
              /\ map DirectionEncoder.U r
                 = map DirectionEncoder.U acc
                   ++ (if DirectionEncoder.beamToggle d then 1 else 0)
                      :: map (fun d => if DirectionEncoder.beamToggle d
                                       then 1 else 0) ds).
    { intros h1' h2' hd' v1' v2' vd' Hh1 Hh2 Hv1 Hv2 nt. cbn zeta.
      match goal with
      | |- context [DirectionEncoder.strokesLoop ?a ?b ?c ds ?r] =>
          destruct (IH a b c r) as [Hf Hu]
      end.
      - apply Forall_app. split; [exact Hacc|].
        constructor; [|constructor].
        unfold DirectionEncoder.flagsAreBits. simpl.
        repeat split; auto.
        destruct (DirectionEncoder.beamToggle d); auto.
      - cbn zeta in *. split; [exact Hf|].
        rewrite Hu, map_app, <- app_assoc. reflexivity. }
    destruct ds as [|next ds'].
    + apply Hstep; auto.
    + pose proof (lookAhead_bits "H" (DirectionEncoder.dx next) h1 h2 hd ""
                                 Bh1 Bh2) as Lh.
      destruct (DirectionEncoder.lookAhead "H" (DirectionEncoder.dx next)
                                           h1 h2 hd "")
        as [[[h1' h2'] hd'] tn].
      pose proof (lookAhead_bits "V" (DirectionEncoder.dy next) v1 v2 vd tn
                                 Bv1 Bv2) as Lv.
      destruct (DirectionEncoder.lookAhead "V" (DirectionEncoder.dy next)
                                           v1 v2 vd tn)
        as [[[v1' v2'] vd'] tn'].
      cbn zeta in Lh, Lv. cbn [fst snd] in Lh, Lv.
      destruct Lh, Lv. apply Hstep; auto.
Qed.

Lemma strokeValue_bits (s : DirectionEncoder.Stroke) :
  DirectionEncoder.flagsAreBits s ->
  0 <= DirectionEncoder.strokeValue s < 32
  /\ U (decodeBinary (DirectionEncoder.strokeValue s))
     = (DirectionEncoder.U s =? 1).
Proof.
  destruct s as [v1 v2 h1 h2 u nt]. unfold DirectionEncoder.flagsAreBits.
  simpl. intros ([-> | ->] & [-> | ->] & [-> | ->] & [-> | ->] & [-> | ->]);
    vm_compute; repeat split; congruence.
Qed.

Lemma beams_of_toggles (v : list VectorPoint) : forall codes st,
  map (fun code => U (decodeBinary code)) codes
  = DirectionEncoder.beamToggles (beamOn st) v ->
  map snd (decodeFrom st codes) = map snd v.
Proof.
  induction v as [|[[x y] b] v IH]; intros [|code codes] st Hc;
    try discriminate; [reflexivity|].
  cbn [map DirectionEncoder.beamToggles] in Hc. injection Hc as Hu Hrest.
  rewrite decodeFrom_cons. cbn [map].
  assert (Hb : beamOn (step st code) = b).
  { rewrite beamOn_step. change (U (decodeBinary code)) with (flag code 0).
    rewrite Hu. destruct b, (beamOn st); reflexivity. }
  f_equal; [exact Hb|]. apply IH. rewrite Hb. exact Hrest.
Qed.

Lemma decodeFrom_take l : forall k st,
  decodeFrom st (take k l) = take k (decodeFrom st l).
Proof.
  induction l as [|b l IH]; intros [|k] st; try reflexivity.
  cbn [take]. rewrite !decodeFrom_cons. cbn [take]. now rewrite IH.
Qed.

(** X24.  The two-pass encoder throws on an empty point list and
    otherwise always returns exactly 22 strokes, each with a value below
    32: a shorter path is followed by empty padding strokes, a longer one
    is cut.  Decoding the 22 values reproduces the beam state of every
    point that was kept. *)
Theorem convertVectorToCdcBinary_22 (v : list VectorPoint) (c : string)
    (Hv : v <> []) :
  DirectionEncoder.convertVectorToCdcBinary [] c
  = inl "Invalid vector data provided"%string
  /\ exists r,
       DirectionEncoder.convertVectorToCdcBinary v c = inr r
       /\ length r = 22%nat
       /\ Forall (fun s => 0 <= DirectionEncoder.strokeValue s < 32) r
       /\ ((length v <= 22)%nat ->
           drop (length v) r
           = replicate (22 - length v) DirectionEncoder.padding)
       /\ take (length v)
               (map snd (binaryToVector (map DirectionEncoder.strokeValue r)))
          = take 22 (map snd v).
Proof.
  split; [reflexivity|].
  unfold DirectionEncoder.convertVectorToCdcBinary.
  destruct (Z.eqb_spec (Z.of_nat (length v)) 0) as [E|_];
    [destruct v; [contradiction | discriminate]|].
  eexists. split; [reflexivity|].
  set (ds := DirectionEncoder.deltasLoop 0 0 false v []).
  pose proof (deltasLoop_toggles v 0 0 false []) as Hds. fold ds in Hds.
  simpl in Hds.
  destruct (strokesLoop_result ds 0 1 1 [] ltac:(constructor)) as [Hbits Hu].
  cbn zeta in Hbits, Hu. simpl in Hu.
  set (strokes := DirectionEncoder.strokesLoop 0 1 1 ds []) in *.
  assert (Hlen : length strokes = length v).
  { rewrite <- (length_map DirectionEncoder.U strokes), Hu, length_map.
    rewrite <- (length_map DirectionEncoder.beamToggle ds), Hds.
    clear. generalize false.
    induction v as [|[[x y] b] v IH]; intros pb; simpl; [|rewrite IH];
      reflexivity. }
  rewrite Hlen.
  assert (Hpad : DirectionEncoder.flagsAreBits DirectionEncoder.padding)
    by (unfold DirectionEncoder.flagsAreBits; simpl; auto 10).
  split; [rewrite length_take, length_app, length_replicate; lia|].
  split.
  { apply Forall_take, Forall_app. split.
    - eapply Forall_impl; [exact Hbits|]. intros s Hs.
      now apply strokeValue_bits.
    - apply Forall_replicate. now apply strokeValue_bits. }
  split.
  { intros Hle. rewrite take_ge
      by (rewrite length_app, length_replicate; lia).
    rewrite <- Hlen at 1. apply drop_app_length. }
  rewrite binaryToVector_decodeFrom.
  change (map DirectionEncoder.strokeValue
            (take 22 (strokes ++ replicate (22 - length v)
                                           DirectionEncoder.padding)))
    with (DirectionEncoder.strokeValue
            <$> take 22 (strokes ++ replicate (22 - length v)
                                              DirectionEncoder.padding)).
  rewrite fmap_take, fmap_app, decodeFrom_take, decodeFrom_app.
  change (map snd ?l) with (snd <$> l).
  rewrite fmap_take, fmap_app.
  assert (Hbeams : snd <$> decodeFrom initialState
                             (DirectionEncoder.strokeValue <$> strokes)
                   = snd <$> v).
  { apply (beams_of_toggles v _ initialState). simpl beamOn.
    rewrite <- Hds.
    change (DirectionEncoder.strokeValue <$> strokes)
      with (map DirectionEncoder.strokeValue strokes).
    rewrite map_map.
    transitivity (map (fun s => DirectionEncoder.U s =? 1) strokes).
    - apply map_ext_Forall. eapply Forall_impl; [exact Hbits|].
      intros s Hs. now apply strokeValue_bits.
    - rewrite <- (map_map DirectionEncoder.U (fun u => u =? 1)), Hu, !map_map.
      apply map_ext. intros d. now destruct (DirectionEncoder.beamToggle d). }
  rewrite Hbeams, take_take.
  rewrite take_app_le by (rewrite length_fmap; lia).
  destruct (Nat.le_ge_cases (length v) 22) as [Hle|Hge].
  - rewrite Nat.min_l by lia.
    rewrite !take_ge by (rewrite length_fmap; lia). reflexivity.
  - now rewrite Nat.min_r by lia.
Qed.

Lemma convertVectorToCdcBinary_22_witness :
  exists r,
    DirectionEncoder.convertVectorToCdcBinary
      [(2, 2, false); (1, 3, true)] "C" = inr r
    /\ length r = 22%nat.
Proof.
  destruct (convertVectorToCdcBinary_22 [(2, 2, false); (1, 3, true)]
              "C"%string) as (_ & r & Hr & Hl & _); [discriminate|].
  exists r. split; [exact Hr | exact Hl].
Defined.

Lemma decodeCdcBinaryToVector_take_witness :
  RoundTrip.decodeCdcBinaryToVector [10; 10; 18]
  = binaryToVector [10; 10; 18].
Proof.
  destruct (decodeCdcBinaryToVector_take [10; 10; 18]) as [_ H].
  apply H. simpl. lia.
Defined.

Lemma vectorsEqual_iff_witness :
  RoundTrip.vectorsEqual [(2, 2, false); (4, 4, true)]
                         [(2, 2, false); (4, 4, true)] = true.
Proof.
  apply (vectorsEqual_iff [(2, 2, false); (4, 4, true)]
                          [(2, 2, false); (4, 4, true)]).
  reflexivity.
Defined.

Lemma compareVectors_exact_witness :
  RoundTrip.isExactMatch
    (RoundTrip.compareVectors [(2, 2, false); (4, 4, true)]
                              [(2, 2, false); (4, 4, true)]) = true.
Proof.
  destruct (compareVectors_exact [(2, 2, false); (4, 4, true)]
                                 [(2, 2, false); (4, 4, true)]) as [H _].
  apply H. reflexivity.
Defined.
